(** * Strategy-pattern sorting library: a shallow embedding of
    [interface_classes.py] and the verification of its specification.

    The five sorting functions of the module work on Python list objects.
    Each one first copies its argument ([items = list(data)]) and then works
    on the copy, in place for bubble, selection and insertion sort, and
    through freshly built lists for merge and quick sort.  The embedding keeps
    that: list objects live in a store, a function receives the address of
    its argument and returns the address of its result, and every indexing
    operation may fail as Python's does.  *)

From stdpp Require Import list sorting strings.
From Stdlib Require Import ZArith Lia Sorting.Sorted.

Local Open Scope nat_scope.

(** ** Keys and the ordering policy *)

(** The operations the module applies to keys: [<], [>] and [==], as a
    Python type with a total order provides them. *)
Class KeyOrder (K : Type) := {
  key_lt : K -> K -> bool;
  key_gt : K -> K -> bool;
  key_eq : K -> K -> bool;
  key_gt_lt : forall a b, key_gt a b = key_lt b a;
  key_eq_spec : forall a b, key_eq a b = true <-> a = b;
  key_lt_irrefl : forall a, key_lt a a = false;
  key_lt_trans : forall a b c,
    key_lt a b = true -> key_lt b c = true -> key_lt a c = true;
  key_lt_total : forall a b, key_lt a b = true \/ a = b \/ key_lt b a = true
}.

(** [_should_swap(a_key, b_key, *, reverse)]:
    [a_key < b_key if reverse else a_key > b_key]. *)
Definition _should_swap {K} `{KeyOrder K} (a_key b_key : K) (reverse : bool) : bool :=
  if reverse then key_lt a_key b_key else key_gt a_key b_key.

(** The [key] argument: [None], or a function from items to keys.  With
    [None] the items are their own keys. *)
Inductive key_arg (T : Type) : Type -> Type :=
| KeyNone : key_arg T T
| KeyFn {K : Type} (f : T -> K) : key_arg T K.
Arguments KeyNone {T}.
Arguments KeyFn {T K} f.

Definition _identity {T} (x : T) : T := x.

Definition _normalize_key {T K} (key : key_arg T K) : T -> K :=
  match key in key_arg _ K0 return T -> K0 with
  | KeyNone => _identity
  | KeyFn f => f
  end.

(** ** The store of list objects *)

(** An address is the index of the object in the store; a new object is
    placed at the end, so it gets an address that no older object has. *)
Abbreviation loc := nat.
Abbreviation store T := (list (list T)).

(** Computations that read and update the store and may raise. *)
Definition M (T A : Type) := store T -> option (A * store T).

Definition ret {T A} (a : A) : M T A := fun h => Some (a, h).

Definition bind {T A B} (m : M T A) (f : A -> M T B) : M T B :=
  fun h => match m h with
           | Some (a, h') => f a h'
           | None => None
           end.

Definition raise {T A} : M T A := fun _ => None.

Declare Scope py_scope.
Delimit Scope py_scope with py.
Notation "x <- m ;; f" := (bind m (fun x => f))
  (at level 100, m at next level, right associativity) : py_scope.
Notation "m ;; f" := (bind m (fun _ => f))
  (at level 100, right associativity) : py_scope.
Local Open Scope py_scope.

Section PyList.
Context {T : Type}.

(** Allocation of a new list object. *)
Definition new_list (l : list T) : M T loc :=
  fun h => Some (length h, h ++ [l]).

(** Reading the contents of an object; an unknown address raises. *)
Definition contents (p : loc) : M T (list T) :=
  fun h => match h !! p with
           | Some l => Some (l, h)
           | None => None
           end.

Definition set_contents (p : loc) (l : list T) : M T unit :=
  fun h => if p <? length h then Some (tt, <[p := l]> h) else None.

(** [list(data)]: a new object with the same elements. *)
Definition py_list (data : loc) : M T loc :=
  l <- contents data ;; new_list l.

(** [len(p)]. *)
Definition py_len (p : loc) : M T nat :=
  l <- contents p ;; ret (length l).

(** [p[i]] for an index [i >= 0]: raises [IndexError] out of range. *)
Definition getitem (p : loc) (i : nat) : M T T :=
  l <- contents p ;;
  match l !! i with
  | Some x => ret x
  | None => raise
  end.

(** [p[i] = x] for an index [i >= 0]: raises [IndexError] out of range. *)
Definition setitem (p : loc) (i : nat) (x : T) : M T unit :=
  l <- contents p ;;
  if i <? length l then set_contents p (<[i := x]> l) else raise.

(** [p.append(x)]. *)
Definition append (p : loc) (x : T) : M T unit :=
  l <- contents p ;; set_contents p (l ++ [x]).

(** [p.extend(q)]. *)
Definition extend (p q : loc) : M T unit :=
  l2 <- contents q ;; l1 <- contents p ;; set_contents p (l1 ++ l2).

(** [p[i:]] and [p[:i]] for [i >= 0]: new objects. *)
Definition slice_from (p : loc) (i : nat) : M T loc :=
  l <- contents p ;; new_list (drop i l).

Definition slice_to (p : loc) (i : nat) : M T loc :=
  l <- contents p ;; new_list (take i l).

(** [p + q]: a new object. *)
Definition concat (p q : loc) : M T loc :=
  l1 <- contents p ;; l2 <- contents q ;; new_list (l1 ++ l2).

(** [for i in range(start, start + n)], with the loop-carried local
    variables in [s]. *)
Fixpoint for_range {St : Type} (start n : nat) (body : nat -> St -> M T St) (s : St)
  : M T St :=
  match n with
  | 0 => ret s
  | S n' => s' <- body start s ;; for_range (S start) n' body s'
  end.

(** [for i in range(start, 0, -1)] whose body may [break]: the body returns
    [true] to leave the loop. *)
Fixpoint for_down_break (start : nat) (body : nat -> M T bool) : M T unit :=
  match start with
  | 0 => ret tt
  | S start' =>
      stop <- body start ;;
      if stop then ret tt else for_down_break start' body
  end.

(** [for item in p]: the list iterator yields [p[0]], [p[1]], ... up to the
    length of [p]; the loops of the module never change the length of the
    list they iterate over, so the length is read once. *)
Definition for_in (p : loc) (body : T -> M T unit) : M T unit :=
  n <- py_len p ;;
  for_range 0 n (fun i _ => item <- getitem p i ;; body item) tt.

End PyList.

(** ** The sorting algorithms *)

Section Algorithms.
Context {T K : Type} `{KeyOrder K}.

(** [items[i], items[j] = items[j], items[i]]: the right-hand side is read
    first, then [items[i]] and [items[j]] are assigned in this order. *)
Definition swap_items (items : loc) (i j : nat) : M T unit :=
  x <- getitem items j ;;
  y <- getitem items i ;;
  setitem items i x ;;
  setitem items j y.

(** The body of the inner loop of [bubble_sort]; [swapped] is the loop's
    flag. *)
Definition bubble_step (items : loc) (k : T -> K) (reverse : bool)
    (i : nat) (swapped : bool) : M T bool :=
  a <- getitem items i ;;
  b <- getitem items (i + 1) ;;
  if _should_swap (k a) (k b) reverse then
    swap_items items i (i + 1) ;;
    ret true
  else ret swapped.

Definition bubble_sort (data : loc) (key : key_arg T K) (reverse : bool) : M T loc :=
  items <- py_list data ;;
  let k := _normalize_key key in
  n <- py_len items ;;
  for_down_break (n - 1) (fun end_ =>
    swapped <- for_range 0 end_ (bubble_step items k reverse) false ;;
    ret (negb swapped)) ;;
  ret items.

(** The body of the inner loop of [selection_sort]; [best_idx] is the
    loop's variable. *)
Definition selection_step (items : loc) (k : T -> K) (reverse : bool)
    (j : nat) (best_idx : nat) : M T nat :=
  a <- getitem items best_idx ;;
  b <- getitem items j ;;
  if _should_swap (k a) (k b) reverse then ret j else ret best_idx.

(** The body of the outer loop of [selection_sort]. *)
Definition selection_round (items : loc) (k : T -> K) (reverse : bool)
    (n : nat) (i : nat) (_ : unit) : M T unit :=
  best_idx <- for_range (i + 1) (n - (i + 1)) (selection_step items k reverse) i ;;
  if negb (best_idx =? i) then swap_items items i best_idx else ret tt.

Definition selection_sort (data : loc) (key : key_arg T K) (reverse : bool) : M T loc :=
  items <- py_list data ;;
  let k := _normalize_key key in
  n <- py_len items ;;
  for_range 0 n (selection_round items k reverse n) tt ;;
  ret items.

(** The [while j >= 0 and _should_swap(k(items[j]), current_key)] loop of
    insertion sort.  [j] starts at [i - 1] and may reach [-1]: the loop
    variable here is [j1 = j + 1], so that [j >= 0] reads [j1 > 0], and the
    value returned is [j + 1] at the exit of the loop. *)
Fixpoint insertion_shift (items : loc) (k : T -> K) (reverse : bool)
    (current_key : K) (j1 : nat) : M T nat :=
  match j1 with
  | 0 => ret 0
  | S j =>
      x <- getitem items j ;;
      if _should_swap (k x) current_key reverse then
        y <- getitem items j ;;
        setitem items (j + 1) y ;;
        insertion_shift items k reverse current_key j
      else ret (S j)
  end.

(** The body of the outer loop of [insertion_sort]. *)
Definition insertion_round (items : loc) (k : T -> K) (reverse : bool)
    (i : nat) (_ : unit) : M T unit :=
  current <- getitem items i ;;
  let current_key := k current in
  j1 <- insertion_shift items k reverse current_key i ;;
  setitem items j1 current.

Definition insertion_sort (data : loc) (key : key_arg T K) (reverse : bool) : M T loc :=
  items <- py_list data ;;
  let k := _normalize_key key in
  n <- py_len items ;;
  for_range 1 (n - 1) (insertion_round items k reverse) tt ;;
  ret items.

(** The [while i < len(left) and j < len(right)] loop of [merge].  Every
    iteration increases [i] or [j]; [fuel] bounds the number of iterations
    and the loop raises when it is used up. *)
Fixpoint merge_loop (fuel : nat) (k : T -> K) (reverse : bool)
    (left right result : loc) (i j : nat) : M T (nat * nat) :=
  nl <- py_len left ;;
  nr <- py_len right ;;
  if (i <? nl) && (j <? nr) then
    match fuel with
    | 0 => raise
    | S fuel' =>
        a <- getitem left i ;;
        b <- getitem right j ;;
        if _should_swap (k a) (k b) reverse then
          x <- getitem right j ;;
          append result x ;;
          merge_loop fuel' k reverse left right result i (j + 1)
        else
          x <- getitem left i ;;
          append result x ;;
          merge_loop fuel' k reverse left right result (i + 1) j
    end
  else ret (i, j).

Definition merge (k : T -> K) (reverse : bool) (left right : loc) : M T loc :=
  result <- new_list [] ;;
  nl <- py_len left ;;
  nr <- py_len right ;;
  ij <- merge_loop (nl + nr) k reverse left right result 0 0 ;;
  let '(i, j) := ij in
  rest_l <- slice_from left i ;;
  extend result rest_l ;;
  rest_r <- slice_from right j ;;
  extend result rest_r ;;
  ret result.

(** The inner [sort] of [merge_sort]; [fuel] bounds the depth of the
    recursion, which raises when it is used up.  A sequence of two or more
    elements is split into strictly shorter ones, so that the length of the
    sequence is depth enough. *)
Fixpoint merge_sort_rec (fuel : nat) (k : T -> K) (reverse : bool) (seq : loc)
  : M T loc :=
  n <- py_len seq ;;
  if n <=? 1 then ret seq
  else
    match fuel with
    | 0 => raise
    | S fuel' =>
        n' <- py_len seq ;;
        let mid := n' / 2 in
        lo <- slice_to seq mid ;;
        sorted_lo <- merge_sort_rec fuel' k reverse lo ;;
        hi <- slice_from seq mid ;;
        sorted_hi <- merge_sort_rec fuel' k reverse hi ;;
        merge k reverse sorted_lo sorted_hi
    end.

(** [merge_sort]; the depth allowed to [sort] is the length of [items]. *)
Definition merge_sort (data : loc) (key : key_arg T K) (reverse : bool) : M T loc :=
  items <- py_list data ;;
  let k := _normalize_key key in
  n <- py_len items ;;
  merge_sort_rec n k reverse items.

(** The body of the partition loop of [quick_sort]. *)
Definition partition_step (k : T -> K) (reverse : bool) (pivot_key : K)
    (left middle right : loc) (item : T) : M T unit :=
  let item_key := k item in
  if key_eq item_key pivot_key then append middle item
  else if _should_swap item_key pivot_key reverse then append right item
  else append left item.

(** The inner [sort] of [quick_sort], with the same use of [fuel]. *)
Fixpoint quick_sort_rec (fuel : nat) (k : T -> K) (reverse : bool) (seq : loc)
  : M T loc :=
  n <- py_len seq ;;
  if n <=? 1 then ret seq
  else
    match fuel with
    | 0 => raise
    | S fuel' =>
        n' <- py_len seq ;;
        pivot <- getitem seq (n' / 2) ;;
        let pivot_key := k pivot in
        left <- new_list [] ;;
        middle <- new_list [] ;;
        right <- new_list [] ;;
        for_in seq (partition_step k reverse pivot_key left middle right) ;;
        sorted_left <- quick_sort_rec fuel' k reverse left ;;
        left_mid <- concat sorted_left middle ;;
        sorted_right <- quick_sort_rec fuel' k reverse right ;;
        concat left_mid sorted_right
    end.

(** [quick_sort]; the depth allowed to [sort] is the length of [items]. *)
Definition quick_sort (data : loc) (key : key_arg T K) (reverse : bool) : M T loc :=
  items <- py_list data ;;
  let k := _normalize_key key in
  n <- py_len items ;;
  quick_sort_rec n k reverse items.

End Algorithms.

(** The five algorithms, as the test module lists them in [ALGORITHMS]. *)
Definition sort_fn (T : Type) : Type :=
  forall (K : Type), KeyOrder K -> loc -> key_arg T K -> bool -> M T loc.

Inductive algorithm : Type :=
| Bubble | Selection | Insertion | Merge | Quick.

Definition algorithm_fn {T} (a : algorithm) : sort_fn T :=
  match a with
  | Bubble => fun K o => @bubble_sort T K o
  | Selection => fun K o => @selection_sort T K o
  | Insertion => fun K o => @insertion_sort T K o
  | Merge => fun K o => @merge_sort T K o
  | Quick => fun K o => @quick_sort T K o
  end.

Definition ALGORITHMS : list algorithm :=
  [Bubble; Selection; Insertion; Merge; Quick].

(** What a caller observes of a call: the contents of the returned list,
    in the store the call leaves. *)
Definition result_of {T} (m : M T loc) (h : store T) : option (list T) :=
  match m h with
  | Some (r, h') => h' !! r
  | None => None
  end.

(** ** The strategy selectors *)

(** 1) The explicit interface: a strategy object has a [sort] method; the
    five concrete classes have no fields. *)
Record SortingStrategyABC (T : Type) := { abc_sort : sort_fn T }.
Arguments abc_sort {T}.

Definition BubbleSortABC {T} : SortingStrategyABC T :=
  {| abc_sort := fun K o data key reverse => @bubble_sort T K o data key reverse |}.
Definition SelectionSortABC {T} : SortingStrategyABC T :=
  {| abc_sort := fun K o data key reverse => @selection_sort T K o data key reverse |}.
Definition InsertionSortABC {T} : SortingStrategyABC T :=
  {| abc_sort := fun K o data key reverse => @insertion_sort T K o data key reverse |}.
Definition MergeSortABC {T} : SortingStrategyABC T :=
  {| abc_sort := fun K o data key reverse => @merge_sort T K o data key reverse |}.
Definition QuickSortABC {T} : SortingStrategyABC T :=
  {| abc_sort := fun K o data key reverse => @quick_sort T K o data key reverse |}.

(** [SorterABC]: the context, with its mutable field [strategy]. *)
Record SorterABC (T : Type) := { abc_strategy : SortingStrategyABC T }.
Arguments abc_strategy {T}.

Definition SorterABC_sort {T K} `{o : KeyOrder K} (self : SorterABC T)
    (data : loc) (key : key_arg T K) (reverse : bool) : M T loc :=
  abc_sort (abc_strategy self) K o data key reverse.

(** 2) The implicit interface: any object with a [sort] method of the right
    signature; [FunctionSortStrategy] wraps a function into such an object. *)
Record SortingStrategyProto (T : Type) := { proto_sort : sort_fn T }.
Arguments proto_sort {T}.

Definition FunctionSortStrategy {T} (fn : sort_fn T) : SortingStrategyProto T :=
  {| proto_sort := fun K o data key reverse => fn K o data key reverse |}.

Record SorterProto (T : Type) := { proto_strategy : SortingStrategyProto T }.
Arguments proto_strategy {T}.

Definition SorterProto_sort {T K} `{o : KeyOrder K} (self : SorterProto T)
    (data : loc) (key : key_arg T K) (reverse : bool) : M T loc :=
  proto_sort (proto_strategy self) K o data key reverse.

(** 3) A plain callable as the strategy. *)
Record SorterCallable (T : Type) := { callable_strategy : sort_fn T }.
Arguments callable_strategy {T}.

Definition SorterCallable_sort {T K} `{o : KeyOrder K} (self : SorterCallable T)
    (data : loc) (key : key_arg T K) (reverse : bool) : M T loc :=
  (callable_strategy self) K o data key reverse.

(** Assignment to the field [strategy] of a selector. *)
Definition SorterABC_set_strategy {T} (self : SorterABC T)
    (s : SortingStrategyABC T) : SorterABC T :=
  {| abc_strategy := s |}.

Definition SorterProto_set_strategy {T} (self : SorterProto T)
    (s : SortingStrategyProto T) : SorterProto T :=
  {| proto_strategy := s |}.

Definition SorterCallable_set_strategy {T} (self : SorterCallable T)
    (s : sort_fn T) : SorterCallable T :=
  {| callable_strategy := s |}.

(** A selector in use: the caller calls [sort] and assigns to the field
    [strategy], in any order. *)
Inductive request (T Strat : Type) : Type :=
| Sort {K : Type} (o : KeyOrder K) (data : loc) (key : key_arg T K) (reverse : bool)
| Assign (s : Strat).
Arguments Sort {T Strat K} o data key reverse.
Arguments Assign {T Strat} s.

(** [session sort assign self rs] serves the requests [rs] in order with
    the selector [self], whose methods are [sort] and the assignment
    [assign]; it returns the results of the calls, in order, and the
    selector as the requests leave it. *)
Fixpoint session {T Sel Strat} (sort : Sel -> sort_fn T)
    (assign : Sel -> Strat -> Sel) (self : Sel) (rs : list (request T Strat))
  : M T (list loc * Sel) :=
  match rs with
  | [] => ret ([], self)
  | Sort o data key reverse :: rs' =>
      r <- sort self _ o data key reverse ;;
      rest <- session sort assign self rs' ;;
      ret (r :: rest.1, rest.2)
  | Assign s :: rs' => session sort assign (assign self s) rs'
  end.

(** ** Key types and items used in the scenarios *)

(** Python integers as keys. *)
Definition Z_KeyOrder : KeyOrder Z :=
  {| key_lt := Z.ltb;
     key_gt := Z.gtb;
     key_eq := Z.eqb;
     key_gt_lt := Z.gtb_ltb;
     key_eq_spec := Z.eqb_eq;
     key_lt_irrefl := Z.ltb_irrefl;
     key_lt_trans := fun a b c Hab Hbc =>
       proj2 (Z.ltb_lt a c)
         (Z.lt_trans a b c (proj1 (Z.ltb_lt a b) Hab) (proj1 (Z.ltb_lt b c) Hbc));
     key_lt_total := fun a b =>
       match Z.lt_total a b with
       | or_introl Hlt => or_introl (proj2 (Z.ltb_lt a b) Hlt)
       | or_intror (or_introl Heq) => or_intror (or_introl Heq)
       | or_intror (or_intror Hgt) => or_intror (or_intror (proj2 (Z.ltb_lt b a) Hgt))
       end |}.
#[export] Existing Instance Z_KeyOrder.

(** The lengths that [len] returns, as keys. *)
Definition nat_KeyOrder : KeyOrder nat :=
  {| key_lt := Nat.ltb;
     key_gt := fun a b => Nat.ltb b a;
     key_eq := Nat.eqb;
     key_gt_lt := fun a b => eq_refl;
     key_eq_spec := Nat.eqb_eq;
     key_lt_irrefl := Nat.ltb_irrefl;
     key_lt_trans := fun a b c Hab Hbc =>
       proj2 (Nat.ltb_lt a c)
         (Nat.lt_trans a b c (proj1 (Nat.ltb_lt a b) Hab) (proj1 (Nat.ltb_lt b c) Hbc));
     key_lt_total := fun a b =>
       match Nat.lt_total a b with
       | or_introl Hlt => or_introl (proj2 (Nat.ltb_lt a b) Hlt)
       | or_intror (or_introl Heq) => or_intror (or_introl Heq)
       | or_intror (or_intror Hgt) => or_intror (or_intror (proj2 (Nat.ltb_lt b a) Hgt))
       end |}.
#[export] Existing Instance nat_KeyOrder.

(** The items of the test module: a value to sort by and a tag that tells
    apart items of equal value. *)
Record Item : Type := { value : Z; tag : string }.

(** [len] on strings. *)
Definition len (s : string) : nat := String.length s.

(** ** The canonical stable sort of the specification *)

Section Canonical.
Context {T K : Type} `{KeyOrder K}.

(** [x] may stand before [y] in the desired order. *)
Definition precedes (k : T -> K) (reverse : bool) (x y : T) : Prop :=
  _should_swap (k x) (k y) reverse = false.

Definition key_sorted (k : T -> K) (reverse : bool) (l : list T) : Prop :=
  StronglySorted (precedes k reverse) l.

(** The elements of [l] whose key is [c], in the order they have in [l]. *)
Definition with_key (k : T -> K) (c : K) (l : list T) : list T :=
  List.filter (fun x => key_eq (k x) c) l.

(** Elements with equal keys stand in the same relative order in [l1] and
    in [l2]. *)
Definition same_key_order (k : T -> K) (l1 l2 : list T) : Prop :=
  forall c, with_key k c l1 = with_key k c l2.

(** The canonical stable sort ([sorted(l, key=key, reverse=reverse)]),
    following the words of the specification: the permutation of the input
    that is sorted under the ordering policy and keeps elements of equal key
    in their input order.  It is built from the end of the input: each
    element is inserted into the sorted rest, behind the elements that it
    must follow and in front of all others, those of its own key among
    them, which come later in the input. *)
Fixpoint insert_stable (k : T -> K) (reverse : bool) (x : T) (l : list T) : list T :=
  match l with
  | [] => [x]
  | y :: l' =>
      if _should_swap (k x) (k y) reverse then y :: insert_stable k reverse x l'
      else x :: l
  end.

Definition canonicalSort (key : key_arg T K) (reverse : bool) (l : list T) : list T :=
  foldr (insert_stable (_normalize_key key) reverse) [] l.

End Canonical.

(** ** The inputs of the scenarios *)

(** Items of equal value in front of a smaller one. *)
Definition tagged_items : list Item :=
  [ {| value := 2; tag := "a" |}; {| value := 2; tag := "b" |};
    {| value := 1; tag := "c" |} ].

(** Two items of equal value. *)
Definition tied_items : list Item :=
  [ {| value := 1; tag := "a" |}; {| value := 1; tag := "b" |} ].

Definition words : list string := ["pear"; "banana"; "fig"; "apple"].

(** The strategy object of the explicit interface for each algorithm. *)
Definition strategy_object {T} (a : algorithm) : SortingStrategyABC T :=
  match a with
  | Bubble => BubbleSortABC
  | Selection => SelectionSortABC
  | Insertion => InsertionSortABC
  | Merge => MergeSortABC
  | Quick => QuickSortABC
  end.

(** The integers of the demo and of the tests. *)
Definition demo_data : list Z := [5; 1; 4; 2; 8; 0; 2]%Z.

(** ** The loops as functions on list contents

    These functions describe what a loop of the code does to the contents
    of the list it works on; the proofs relate each loop to its function. *)

Section LoopValues.
Context {T K : Type} `{KeyOrder K}.

(** One pass of bubble sort over [a :: l], as a function on the contents:
    the list after the pass and whether a swap took place. *)
Fixpoint bubble_up (k : T -> K) (reverse : bool) (a : T) (l : list T) : list T * bool :=
  match l with
  | [] => ([a], false)
  | b :: l' =>
      if _should_swap (k a) (k b) reverse
      then (b :: (bubble_up k reverse a l').1, true)
      else (a :: (bubble_up k reverse b l').1, (bubble_up k reverse b l').2)
  end.
(** The inner loop of selection sort over the elements [todo], which stand
    at the indices [j], [j + 1], ...: the index and the value of the best
    element, starting from the element [vb] at index [b]. *)
Fixpoint select_best (k : T -> K) (reverse : bool) (b : nat) (vb : T)
    (j : nat) (todo : list T) : nat * T :=
  match todo with
  | [] => (b, vb)
  | y :: todo' =>
      if _should_swap (k vb) (k y) reverse
      then select_best k reverse j y (S j) todo'
      else select_best k reverse b vb (S j) todo'
  end.

(** The three buckets of the partition of quick sort around the key [pk]. *)
Definition in_middle (k : T -> K) (pk : K) (x : T) : bool := key_eq (k x) pk.

Definition in_right (k : T -> K) (reverse : bool) (pk : K) (x : T) : bool :=
  negb (key_eq (k x) pk) && _should_swap (k x) pk reverse.

Definition in_left (k : T -> K) (reverse : bool) (pk : K) (x : T) : bool :=
  negb (key_eq (k x) pk) && negb (_should_swap (k x) pk reverse).

End LoopValues.


(** ** Specifications of computations

    [wp m h Q]: from the store [h] the computation [m] returns, with a value
    and a store that satisfy [Q]. *)
Definition wp {T A} (m : M T A) (h : store T) (Q : A -> store T -> Prop) : Prop :=
  match m h with
  | Some (a, h') => Q a h'
  | None => False
  end.

(** * Verification *)

(** ** The ordering policy is a strict total order on keys *)

Section OrderFacts.
Context {K : Type} `{KeyOrder K}.

Lemma should_swap_flip (a b : K) (reverse : bool) :
  _should_swap a b reverse = _should_swap b a (negb reverse).
Proof. destruct reverse; simpl; rewrite key_gt_lt; reflexivity. Qed.

Lemma should_swap_irrefl (a : K) reverse : _should_swap a a reverse = false.
Proof. destruct reverse; simpl; rewrite ?key_gt_lt; apply key_lt_irrefl. Qed.

Lemma should_swap_trans (a b c : K) reverse :
  _should_swap a b reverse = true -> _should_swap b c reverse = true ->
  _should_swap a c reverse = true.
Proof.
  destruct reverse; simpl; rewrite ?key_gt_lt; eauto using key_lt_trans.
Qed.

Lemma should_swap_asym (a b : K) reverse :
  _should_swap a b reverse = true -> _should_swap b a reverse = false.
Proof.
  intros Hab. destruct (_should_swap b a reverse) eqn:Hba; [|reflexivity].
  pose proof (should_swap_trans _ _ _ _ Hab Hba) as Haa.
  rewrite should_swap_irrefl in Haa. discriminate.
Qed.

Lemma should_swap_total (a b : K) reverse :
  _should_swap a b reverse = false -> _should_swap b a reverse = false -> a = b.
Proof.
  destruct reverse; simpl; rewrite ?key_gt_lt; intros Hab Hba;
    destruct (key_lt_total a b) as [Hlt|[Heq|Hlt]]; congruence.
Qed.

Lemma should_swap_neq (a b : K) reverse :
  _should_swap a b reverse = true -> a <> b.
Proof. intros Hab ->. rewrite should_swap_irrefl in Hab. discriminate. Qed.

Lemma should_swap_key_eq (a b : K) reverse :
  _should_swap a b reverse = true -> key_eq a b = false.
Proof.
  intros Hab. destruct (key_eq a b) eqn:E; [|reflexivity].
  apply key_eq_spec in E. exfalso. eapply should_swap_neq; eauto.
Qed.

Lemma should_swap_le_trans (a b c : K) reverse :
  _should_swap a b reverse = false -> _should_swap b c reverse = false ->
  _should_swap a c reverse = false.
Proof.
  intros Hab Hbc. destruct (_should_swap a c reverse) eqn:Hac; [|reflexivity].
  destruct (_should_swap c b reverse) eqn:Hcb.
  - rewrite (should_swap_trans _ _ _ _ Hac Hcb) in Hab. discriminate.
  - assert (b = c) by eauto using should_swap_total. subst. congruence.
Qed.

Lemma should_swap_lt_le_trans (a b c : K) reverse :
  _should_swap a b reverse = true -> _should_swap c b reverse = false ->
  _should_swap a c reverse = true.
Proof.
  intros Hab Hcb. destruct (_should_swap a c reverse) eqn:Hac; [reflexivity|].
  rewrite (should_swap_le_trans _ _ _ _ Hac Hcb) in Hab. discriminate.
Qed.

Lemma key_eq_refl (a : K) : key_eq a a = true.
Proof. apply key_eq_spec. reflexivity. Qed.

Lemma key_eq_sym (a b : K) : key_eq a b = key_eq b a.
Proof.
  destruct (key_eq a b) eqn:E1, (key_eq b a) eqn:E2; try reflexivity.
  - apply key_eq_spec in E1. subst. rewrite key_eq_refl in E2. discriminate.
  - apply key_eq_spec in E2. subst. rewrite key_eq_refl in E1. discriminate.
Qed.

End OrderFacts.

(** ** Sorted lists, stability, and the canonical sort *)

Section CanonicalFacts.
Context {T K : Type} `{KeyOrder K}.
Variable k : T -> K.
Variable reverse : bool.

#[local] Instance precedes_trans : Transitive (precedes k reverse).
Proof. intros x y z. unfold precedes. apply should_swap_le_trans. Qed.

Lemma precedes_refl x : precedes k reverse x x.
Proof. apply should_swap_irrefl. Qed.

Lemma precedes_total x y : precedes k reverse x y \/ precedes k reverse y x.
Proof.
  unfold precedes. destruct (_should_swap (k x) (k y) reverse) eqn:E; [|by left].
  right. by apply should_swap_asym.
Qed.

Lemma with_key_app c (l1 l2 : list T) :
  with_key k c (l1 ++ l2) = with_key k c l1 ++ with_key k c l2.
Proof. apply List.filter_app. Qed.

Lemma with_key_cons c x (l : list T) :
  with_key k c (x :: l) = (if key_eq (k x) c then [x] else []) ++ with_key k c l.
Proof. unfold with_key. simpl. by destruct (key_eq (k x) c). Qed.

Lemma with_key_elem c x (l : list T) : x ∈ with_key k c l <-> x ∈ l /\ k x = c.
Proof.
  unfold with_key. rewrite !list_elem_of_In, List.filter_In, key_eq_spec.
  reflexivity.
Qed.

(** Two neighbours with different keys may change places without any
    change in the order of the elements with equal keys. *)
Lemma with_key_swap c x y (l : list T) :
  k x <> k y -> with_key k c (x :: y :: l) = with_key k c (y :: x :: l).
Proof.
  intros Hne. rewrite !with_key_cons.
  destruct (key_eq (k x) c) eqn:Ex, (key_eq (k y) c) eqn:Ey; try reflexivity.
  apply key_eq_spec in Ex, Ey. congruence.
Qed.

Lemma same_key_order_refl (l : list T) : same_key_order k l l.
Proof. by intros c. Qed.

Lemma same_key_order_trans (l1 l2 l3 : list T) :
  same_key_order k l1 l2 -> same_key_order k l2 l3 -> same_key_order k l1 l3.
Proof. intros H12 H23 c. by rewrite H12. Qed.

Lemma same_key_order_sym (l1 l2 : list T) :
  same_key_order k l1 l2 -> same_key_order k l2 l1.
Proof. intros H12 c. by rewrite H12. Qed.

Lemma same_key_order_app (l1 l2 l1' l2' : list T) :
  same_key_order k l1 l1' -> same_key_order k l2 l2' ->
  same_key_order k (l1 ++ l2) (l1' ++ l2').
Proof. intros H1 H2 c. rewrite !with_key_app. by rewrite H1, H2. Qed.

Lemma same_key_order_elem (l1 l2 : list T) x :
  same_key_order k l1 l2 -> x ∈ l1 -> x ∈ l2.
Proof.
  intros Hs Hx. assert (x ∈ with_key k (k x) l1) as Hin by by apply with_key_elem.
  rewrite Hs in Hin. by apply with_key_elem in Hin as [? _].
Qed.

Lemma same_key_order_length (l1 l2 : list T) :
  same_key_order k l1 l2 -> length l1 = length l2.
Proof.
  revert l2. induction l1 as [|x l1 IH]; intros l2 Hs.
  - destruct l2 as [|y l2]; [done|]. specialize (Hs (k y)).
    rewrite with_key_cons, key_eq_refl in Hs. discriminate.
  - assert (x ∈ l2) as Hx by (eapply same_key_order_elem; [done|left]).
    (* remove the first element of key [k x] from [l2]: it is [x] *)
    assert (exists l2a l2b, l2 = l2a ++ x :: l2b /\ with_key k (k x) l2a = []) as
      (l2a & l2b & -> & Ha).
    { pose proof (Hs (k x)) as Hc. rewrite with_key_cons, key_eq_refl in Hc.
      simpl in Hc. clear -Hc H. revert Hc. generalize (with_key k (k x) l1).
      induction l2 as [|y l2 IH]; intros w Hc; [discriminate|].
      rewrite with_key_cons in Hc. destruct (key_eq (k y) (k x)) eqn:E.
      - simpl in Hc. injection Hc as <- _. exists [], l2. done.
      - simpl in Hc. destruct (IH _ Hc) as (a & b & -> & Ha).
        exists (y :: a), b. split; [done|]. by rewrite with_key_cons, E. }
    rewrite length_app. simpl. rewrite Nat.add_succ_r, <-length_app.
    f_equal. apply IH. intros c. specialize (Hs c).
    rewrite with_key_app, !with_key_cons in Hs. rewrite with_key_app.
    destruct (key_eq (k x) c) eqn:E; simpl in Hs.
    + apply key_eq_spec in E. subst c. rewrite Ha in *. simpl in *. congruence.
    + done.
Qed.

(** A list that is sorted by key is determined by the order of its
    elements of equal key. *)
Lemma key_sorted_unique (l1 l2 : list T) :
  key_sorted k reverse l1 -> key_sorted k reverse l2 ->
  same_key_order k l1 l2 -> l1 = l2.
Proof.
  intros Hs1. revert l2. induction Hs1 as [|x l1 Hs1 IH Hx]; intros l2 Hs2 Hsame.
  - apply same_key_order_length in Hsame. by destruct l2.
  - destruct Hs2 as [|y l2 Hs2 Hy].
    { apply same_key_order_length in Hsame. discriminate. }
    rewrite Forall_forall in Hx, Hy.
    assert (k x = k y) as Hk.
    { assert (x ∈ y :: l2) as Hxin by (eapply same_key_order_elem; [done|left]).
      assert (y ∈ x :: l1) as Hyin.
      { eapply same_key_order_elem; [by apply same_key_order_sym|left]. }
      apply (should_swap_total _ _ reverse).
      - inv Hyin; [apply should_swap_irrefl|by apply Hx].
      - inv Hxin; [apply should_swap_irrefl|by apply Hy]. }
    pose proof (Hsame (k x)) as Hc. rewrite !with_key_cons in Hc.
    rewrite key_eq_refl in Hc. rewrite <-Hk, key_eq_refl in Hc.
    simpl in Hc. injection Hc as -> Hc. f_equal. apply IH; [done|].
    intros c. specialize (Hsame c). rewrite !with_key_cons in Hsame.
    by apply app_inv_head in Hsame.
Qed.

Lemma insert_stable_perm x (l : list T) : insert_stable k reverse x l ≡ₚ x :: l.
Proof.
  induction l as [|y l IH]; simpl; [done|].
  destruct (_should_swap (k x) (k y) reverse); [|done].
  rewrite IH. apply perm_swap.
Qed.

Lemma insert_stable_same_key_order x (l : list T) :
  same_key_order k (insert_stable k reverse x l) (x :: l).
Proof.
  induction l as [|y l IH]; simpl; [done|].
  destruct (_should_swap (k x) (k y) reverse) eqn:E; [|done].
  intros c. rewrite (with_key_swap c x y) by eauto using should_swap_neq.
  rewrite (with_key_cons c y), (with_key_cons c y (x :: l)). by rewrite IH.
Qed.

Lemma insert_stable_sorted x (l : list T) :
  key_sorted k reverse l -> key_sorted k reverse (insert_stable k reverse x l).
Proof.
  unfold key_sorted. induction 1 as [|y l Hs IH Hy]; simpl.
  - repeat constructor.
  - destruct (_should_swap (k x) (k y) reverse) eqn:E.
    + constructor; [done|]. rewrite insert_stable_perm. constructor; [|done].
      by apply should_swap_asym.
    + constructor; [by constructor|]. constructor; [done|].
      eapply Forall_impl; [done|]. intros z Hz. by etrans.
Qed.

(** Inserting an element that may stand first leaves it first. *)
Lemma insert_stable_head x (l : list T) :
  Forall (precedes k reverse x) l -> insert_stable k reverse x l = x :: l.
Proof. destruct 1 as [|y l Hy _]; simpl; [done|]. by rewrite Hy. Qed.

End CanonicalFacts.

Section CanonicalSortFacts.
Context {T K : Type} `{KeyOrder K}.
Variable key : key_arg T K.
Variable reverse : bool.
Abbreviation k := (_normalize_key key).

Lemma canonicalSort_perm (l : list T) : canonicalSort key reverse l ≡ₚ l.
Proof.
  induction l as [|x l IH]; simpl; [done|].
  unfold canonicalSort in *. simpl. by rewrite insert_stable_perm, IH.
Qed.

Lemma canonicalSort_sorted (l : list T) :
  key_sorted k reverse (canonicalSort key reverse l).
Proof.
  induction l as [|x l IH]; [constructor|]. by apply insert_stable_sorted.
Qed.

Lemma canonicalSort_stable (l : list T) :
  same_key_order k (canonicalSort key reverse l) l.
Proof.
  induction l as [|x l IH]; [done|]. unfold canonicalSort in *. simpl.
  eapply same_key_order_trans; [apply insert_stable_same_key_order|].
  apply (same_key_order_app k [x] _ [x] _); [done|apply IH].
Qed.

(** The canonical sort is the only sorted list in which the elements of
    equal key keep their input order. *)
Lemma canonicalSort_unique (l l' : list T) :
  key_sorted k reverse l' -> same_key_order k l' l ->
  l' = canonicalSort key reverse l.
Proof.
  intros Hs Hsame. apply (key_sorted_unique k reverse); [done|apply canonicalSort_sorted|].
  eapply same_key_order_trans; [done|]. apply same_key_order_sym, canonicalSort_stable.
Qed.

Lemma canonicalSort_sorted_id (l : list T) :
  key_sorted k reverse l -> canonicalSort key reverse l = l.
Proof.
  intros Hs. symmetry. apply canonicalSort_unique; [done|apply same_key_order_refl].
Qed.

End CanonicalSortFacts.

(** ** Reasoning about computations on the store *)

Section WpRules.
Context {T : Type}.
Implicit Types (h : store T) (l : list T) (p : loc).

Lemma wp_elim {A} (m : M T A) h Q :
  wp m h Q -> exists a h', m h = Some (a, h') /\ Q a h'.
Proof. unfold wp. destruct (m h) as [[a h']|]; [eauto|done]. Qed.

Lemma wp_intro {A} (m : M T A) h a h' (Q : A -> store T -> Prop) :
  m h = Some (a, h') -> Q a h' -> wp m h Q.
Proof. unfold wp. by intros ->. Qed.

Lemma wp_mono {A} (m : M T A) h (Q Q' : A -> store T -> Prop) :
  wp m h Q -> (forall a h', Q a h' -> Q' a h') -> wp m h Q'.
Proof. unfold wp. destruct (m h) as [[a h']|]; [auto|done]. Qed.

Lemma wp_ret {A} (a : A) h (Q : A -> store T -> Prop) : Q a h -> wp (ret a) h Q.
Proof. done. Qed.

Lemma wp_bind {A B} (m : M T A) (f : A -> M T B) h Q :
  wp m h (fun a h' => wp (f a) h' Q) -> wp (bind m f) h Q.
Proof. unfold wp, bind. by destruct (m h) as [[a h']|]. Qed.

Lemma wp_contents p h l (Q : list T -> store T -> Prop) :
  h !! p = Some l -> Q l h -> wp (contents p) h Q.
Proof. unfold wp, contents. by intros ->. Qed.

Lemma wp_set_contents p h l (Q : unit -> store T -> Prop) :
  p < length h -> Q tt (<[p := l]> h) -> wp (set_contents p l) h Q.
Proof.
  unfold wp, set_contents. intros Hp. apply Nat.ltb_lt in Hp. by rewrite Hp.
Qed.

Lemma wp_new_list l h (Q : loc -> store T -> Prop) :
  Q (length h) (h ++ [l]) -> wp (new_list l) h Q.
Proof. done. Qed.

Lemma wp_py_list p h l (Q : loc -> store T -> Prop) :
  h !! p = Some l -> Q (length h) (h ++ [l]) -> wp (py_list p) h Q.
Proof. intros Hp HQ. apply wp_bind. eapply wp_contents; [done|]. by apply wp_new_list. Qed.

Lemma wp_py_len p h l (Q : nat -> store T -> Prop) :
  h !! p = Some l -> Q (length l) h -> wp (py_len p) h Q.
Proof. intros Hp HQ. apply wp_bind. eapply wp_contents; [done|]. by apply wp_ret. Qed.

Lemma wp_getitem p i h l x (Q : T -> store T -> Prop) :
  h !! p = Some l -> l !! i = Some x -> Q x h -> wp (getitem p i) h Q.
Proof.
  intros Hp Hi HQ. apply wp_bind. eapply wp_contents; [done|].
  rewrite Hi. by apply wp_ret.
Qed.

Lemma wp_setitem p i x h l (Q : unit -> store T -> Prop) :
  h !! p = Some l -> i < length l -> Q tt (<[p := <[i := x]> l]> h) ->
  wp (setitem p i x) h Q.
Proof.
  intros Hp Hi HQ. apply wp_bind. eapply wp_contents; [done|].
  apply Nat.ltb_lt in Hi. rewrite Hi. apply wp_set_contents; [|done].
  by eapply lookup_lt_Some.
Qed.

Lemma wp_append p x h l (Q : unit -> store T -> Prop) :
  h !! p = Some l -> Q tt (<[p := l ++ [x]]> h) -> wp (append p x) h Q.
Proof.
  intros Hp HQ. apply wp_bind. eapply wp_contents; [done|].
  apply wp_set_contents; [|done]. by eapply lookup_lt_Some.
Qed.

Lemma wp_extend p q h l1 l2 (Q : unit -> store T -> Prop) :
  h !! p = Some l1 -> h !! q = Some l2 -> Q tt (<[p := l1 ++ l2]> h) ->
  wp (extend p q) h Q.
Proof.
  intros Hp Hq HQ. apply wp_bind. eapply wp_contents; [done|].
  apply wp_bind. eapply wp_contents; [done|].
  apply wp_set_contents; [|done]. by eapply lookup_lt_Some.
Qed.

Lemma wp_slice_from p i h l (Q : loc -> store T -> Prop) :
  h !! p = Some l -> Q (length h) (h ++ [drop i l]) -> wp (slice_from p i) h Q.
Proof. intros Hp HQ. apply wp_bind. eapply wp_contents; [done|]. by apply wp_new_list. Qed.

Lemma wp_slice_to p i h l (Q : loc -> store T -> Prop) :
  h !! p = Some l -> Q (length h) (h ++ [take i l]) -> wp (slice_to p i) h Q.
Proof. intros Hp HQ. apply wp_bind. eapply wp_contents; [done|]. by apply wp_new_list. Qed.

Lemma wp_concat p q h l1 l2 (Q : loc -> store T -> Prop) :
  h !! p = Some l1 -> h !! q = Some l2 -> Q (length h) (h ++ [l1 ++ l2]) ->
  wp (concat p q) h Q.
Proof.
  intros Hp Hq HQ. apply wp_bind. eapply wp_contents; [done|].
  apply wp_bind. eapply wp_contents; [done|]. by apply wp_new_list.
Qed.

(** The object allocated last. *)
Lemma lookup_last_object h l : (h ++ [l]) !! length h = Some l.
Proof. by rewrite lookup_app_r, Nat.sub_diag by lia. Qed.

Lemma insert_last_object h l l' : <[length h := l']> (h ++ [l]) = h ++ [l'].
Proof. by rewrite insert_app_r_alt, Nat.sub_diag by lia. Qed.

(** [items[i], items[j] = items[j], items[i]] on the last object. *)
Lemma wp_swap_items h l i j x y (Q : unit -> store T -> Prop) :
  l !! i = Some x -> l !! j = Some y ->
  Q tt (h ++ [<[j := x]> (<[i := y]> l)]) ->
  wp (swap_items (length h) i j) (h ++ [l]) Q.
Proof.
  intros Hi Hj HQ. unfold swap_items.
  apply wp_bind. eapply wp_getitem; [apply lookup_last_object|done|].
  apply wp_bind. eapply wp_getitem; [apply lookup_last_object|done|].
  apply wp_bind. eapply wp_setitem; [apply lookup_last_object|by eapply lookup_lt_Some|].
  rewrite insert_last_object.
  eapply wp_setitem; [apply lookup_last_object| |].
  - rewrite length_insert. by eapply lookup_lt_Some.
  - by rewrite insert_last_object.
Qed.

End WpRules.

(** ** Bubble sort *)

Section BubblePass.
Context {T K : Type} `{KeyOrder K}.
Variable k : T -> K.
Variable reverse : bool.
Implicit Types (h : store T) (l : list T).

Lemma swap_adjacent (front : list T) a b rest :
  <[length front + 1 := a]> (<[length front := b]> (front ++ a :: b :: rest))
  = front ++ b :: a :: rest.
Proof.
  rewrite insert_app_r_alt, Nat.sub_diag by lia. simpl.
  rewrite insert_app_r_alt by lia. 
  replace (length front + 1 - length front) with 1 by lia. done.
Qed.

Lemma bubble_pass_spec h (mid : list T) : forall front a suf sw (Q : bool -> store T -> Prop),
  Q (sw || (bubble_up k reverse a mid).2)
    (h ++ [front ++ (bubble_up k reverse a mid).1 ++ suf]) ->
  wp (for_range (length front) (length mid) (bubble_step (length h) k reverse) sw)
     (h ++ [front ++ a :: mid ++ suf]) Q.
Proof.
  induction mid as [|b mid IH]; intros front a suf sw Q HQ; simpl in *.
  - apply wp_ret. by rewrite orb_false_r in HQ.
  - apply wp_bind. unfold bubble_step.
    apply wp_bind. eapply wp_getitem; [apply lookup_last_object|apply list_lookup_middle; done|].
    apply wp_bind. eapply wp_getitem; [apply lookup_last_object| |].
    { rewrite lookup_app_r by lia. by replace (length front + 1 - length front) with 1 by lia. }
    destruct (_should_swap (k a) (k b) reverse) eqn:E.
    + apply wp_bind. eapply wp_swap_items.
      { apply list_lookup_middle; done. }
      { rewrite lookup_app_r by lia. by replace (length front + 1 - length front) with 1 by lia. }
      rewrite swap_adjacent. apply wp_ret.
      specialize (IH (front ++ [b]) a suf true Q).
      rewrite length_app in IH. simpl in IH. rewrite Nat.add_1_r in IH.
      rewrite <-!app_assoc in IH. simpl in IH. apply IH.
      simpl in HQ. by rewrite orb_true_r in HQ.
    + apply wp_ret.
      specialize (IH (front ++ [a]) b suf sw Q).
      rewrite length_app in IH. simpl in IH. rewrite Nat.add_1_r in IH.
      rewrite <-!app_assoc in IH. simpl in IH. apply IH. done.
Qed.
End BubblePass.

Section BubbleSort.
Context {T K : Type} `{KeyOrder K}.
Variable key : key_arg T K.
Variable reverse : bool.
Abbreviation k := (_normalize_key key).
Implicit Types (h : store T) (l : list T).

Lemma bubble_up_length a l : length (bubble_up k reverse a l).1 = S (length l).
Proof.
  revert a. induction l as [|b l IH]; intros a; simpl; [done|].
  destruct (_should_swap (k a) (k b) reverse); simpl; by rewrite IH.
Qed.

Lemma bubble_up_same_key_order a l :
  same_key_order k (bubble_up k reverse a l).1 (a :: l).
Proof.
  revert a. induction l as [|b l IH]; intros a; simpl; [done|].
  destruct (_should_swap (k a) (k b) reverse) eqn:E; simpl; intros c.
  - rewrite (with_key_swap k c a b) by eauto using should_swap_neq.
    rewrite !(with_key_cons k c b). by rewrite IH.
  - rewrite !(with_key_cons k c a). by rewrite IH.
Qed.

(** A pass moves an element that may stand last to the end. *)
Lemma bubble_up_last a l :
  exists u m, (bubble_up k reverse a l).1 = u ++ [m] /\
    Forall (fun x => precedes k reverse x m) u /\ precedes k reverse a m.
Proof.
  revert a. induction l as [|b l IH]; intros a; simpl.
  - exists [], a. split_and!; [done|constructor|apply precedes_refl].
  - destruct (_should_swap (k a) (k b) reverse) eqn:E; simpl.
    + destruct (IH a) as (u & m & -> & Hu & Ham). exists (b :: u), m.
      split_and!; [done| |done]. constructor; [|done].
      apply (precedes_trans k reverse b a m); [|done]. by apply should_swap_asym.
    + destruct (IH b) as (u & m & -> & Hu & Hbm). exists (a :: u), m.
      assert (precedes k reverse a m) by (by apply (precedes_trans k reverse a b m)).
      split_and!; [done| |done]. by constructor.
Qed.

(** A pass without a swap has seen a sorted list. *)
Lemma bubble_up_no_swap a l :
  (bubble_up k reverse a l).2 = false ->
  (bubble_up k reverse a l).1 = a :: l /\ key_sorted k reverse (a :: l).
Proof.
  revert a. induction l as [|b l IH]; intros a; simpl.
  - intros _. split; [done|]. repeat constructor.
  - destruct (_should_swap (k a) (k b) reverse) eqn:E; simpl; [done|].
    intros Hf. destruct (IH b Hf) as [-> Hs]. split; [done|].
    constructor; [done|]. constructor; [done|].
    apply StronglySorted_cons in Hs as [Hb _].
    eapply Forall_impl; [done|]. intros z Hz.
    by apply (precedes_trans k reverse a b z).
Qed.

Lemma bubble_outer_spec h l0 (e : nat) : forall u s (Q : unit -> store T -> Prop),
  length u = S e ->
  key_sorted k reverse s ->
  (forall x y, x ∈ u -> y ∈ s -> precedes k reverse x y) ->
  same_key_order k (u ++ s) l0 ->
  Q tt (h ++ [canonicalSort key reverse l0]) ->
  wp (for_down_break e (fun end_ =>
        swapped <- for_range 0 end_ (bubble_step (length h) k reverse) false ;;
        ret (negb swapped)))
     (h ++ [u ++ s]) Q.
Proof.
  induction e as [|e IH]; intros u s Q Hlen Hs Hus Hsame HQ.
  - simpl. apply wp_ret.
    replace (u ++ s) with (canonicalSort key reverse l0); [done|].
    symmetry. apply canonicalSort_unique; [|done].
    destruct u as [|x [|??]]; try discriminate. simpl.
    constructor; [done|]. apply Forall_forall. intros y Hy. apply Hus; [left|done].
  - cbn [for_down_break]. destruct u as [|a mid]; [discriminate|].
    simpl in Hlen. injection Hlen as Hlen.
    apply wp_bind. apply wp_bind. rewrite <-Hlen.
    apply (bubble_pass_spec k reverse h mid [] a s false).
    simpl. apply wp_ret.
    destruct (bubble_up k reverse a mid).2 eqn:Hflag; simpl.
    + destruct (bubble_up_last a mid) as (u' & m & Hup & Hu' & _).
      pose proof (bubble_up_same_key_order a mid) as Hsk.
      pose proof (bubble_up_length a mid) as Hl.
      rewrite Hup in *. rewrite length_app in Hl. simpl in Hl.
      rewrite <-app_assoc. simpl.
      assert (forall x, x ∈ u' ++ [m] -> x ∈ a :: mid) as Hsub.
      { intros x. apply (same_key_order_elem k). exact Hsk. }
      apply IH; [lia| | | |done].
      * constructor; [done|]. apply Forall_forall. intros y Hy.
        apply Hus; [|done]. apply Hsub, elem_of_app. right. left.
      * intros x y Hx Hy. inv Hy.
        -- rewrite Forall_forall in Hu'. by apply Hu'.
        -- apply Hus; [|done]. apply Hsub, elem_of_app. by left.
      * eapply same_key_order_trans; [|exact Hsame].
        replace (u' ++ m :: s) with ((u' ++ [m]) ++ s) by (by rewrite <-app_assoc).
        apply same_key_order_app; [done|].
        apply same_key_order_refl.
    + apply wp_ret. destruct (bubble_up_no_swap a mid Hflag) as [-> Hsorted].
      replace ((a :: mid) ++ s) with (canonicalSort key reverse l0); [done|].
      symmetry. apply canonicalSort_unique; [|done].
      apply StronglySorted_app_2; done.
Qed.

Lemma bubble_sort_spec h data l (Q : loc -> store T -> Prop) :
  h !! data = Some l ->
  Q (length h) (h ++ [canonicalSort key reverse l]) ->
  wp (bubble_sort data key reverse) h Q.
Proof.
  intros Hd HQ. unfold bubble_sort.
  apply wp_bind. eapply wp_py_list; [done|].
  apply wp_bind. eapply wp_py_len; [apply lookup_last_object|].
  apply wp_bind. destruct l as [|a l].
  - simpl. apply wp_ret. by apply wp_ret.
  - simpl length. rewrite Nat.sub_succ, Nat.sub_0_r.
    pose proof (bubble_outer_spec h (a :: l) (length l) (a :: l) []
                  (fun _ h' => wp (ret (length h)) h' Q)) as Hout.
    rewrite app_nil_r in Hout. apply Hout; [done|constructor| | |by apply wp_ret].
    + intros x y _ Hy. inv Hy.
    + apply same_key_order_refl.
Qed.
End BubbleSort.

(** ** Selection sort *)

Section SelectionSort.
Context {T K : Type} `{KeyOrder K}.
Variable key : key_arg T K.
Variable reverse : bool.
Abbreviation k := (_normalize_key key).
Implicit Types (h : store T) (l : list T).

Lemma selection_scan_spec h (todo : list T) :
  forall pre b vb (Q : nat -> store T -> Prop),
  (pre ++ todo) !! b = Some vb ->
  Q (select_best k reverse b vb (length pre) todo).1 (h ++ [pre ++ todo]) ->
  wp (for_range (length pre) (length todo) (selection_step (length h) k reverse) b)
     (h ++ [pre ++ todo]) Q.
Proof.
  induction todo as [|y todo IH]; intros pre b vb Q Hb HQ.
  - simpl. by apply wp_ret.
  - simpl. apply wp_bind. unfold selection_step at 1.
    apply wp_bind. eapply wp_getitem; [apply lookup_last_object|exact Hb|].
    apply wp_bind. eapply wp_getitem; [apply lookup_last_object|by apply list_lookup_middle|].
    simpl in HQ.
    specialize (IH (pre ++ [y])). rewrite length_app in IH. simpl in IH.
    rewrite Nat.add_1_r, <-app_assoc in IH. simpl in IH.
    destruct (_should_swap (k vb) (k y) reverse); apply wp_ret.
    + apply (IH _ y); [by apply list_lookup_middle|done].
    + by apply (IH _ vb).
Qed.

(** The best element is the first one that may stand before all others. *)
Lemma select_best_spec (todo : list T) : forall b vb j,
  b < j ->
  let r := select_best k reverse b vb j todo in
  (r = (b, vb) \/ exists o, r.1 = j + o /\ todo !! o = Some r.2) /\
  precedes k reverse r.2 vb /\
  Forall (precedes k reverse r.2) todo /\
  (Forall (precedes k reverse vb) todo -> r = (b, vb)).
Proof.
  induction todo as [|y todo IH]; intros b vb j Hbj; simpl.
  - split_and!; [by left|apply precedes_refl|constructor|done].
  - destruct (_should_swap (k vb) (k y) reverse) eqn:E.
    + destruct (IH j y (S j)) as (Hr & Hy & Hall & Hid); [lia|].
      set (r := select_best k reverse j y (S j) todo) in *.
      assert (precedes k reverse y vb) as Hyv by by apply should_swap_asym.
      split_and!.
      * right. destruct Hr as [Hr|(o & Ho & Hv)].
        -- exists 0. rewrite Hr. simpl. split; [lia|done].
        -- exists (S o). simpl. split; [lia|done].
      * by apply (precedes_trans k reverse _ y).
      * by constructor.
      * intros Hf. inv Hf. unfold precedes in *. congruence.
    + destruct (IH b vb (S j)) as (Hr & Hv & Hall & Hid); [lia|].
      set (r := select_best k reverse b vb (S j) todo) in *.
      split_and!.
      * destruct Hr as [Hr|(o & Ho & Hv')]; [by left|].
        right. exists (S o). simpl. split; [lia|done].
      * done.
      * constructor; [|done]. by apply (precedes_trans k reverse _ vb).
      * intros Hf. inv Hf. auto.
Qed.

Lemma swap_with_later (s rest : list T) x v o :
  rest !! o = Some v ->
  <[length s + 1 + o := x]> (<[length s := v]> (s ++ x :: rest))
  = s ++ v :: <[o := x]> rest.
Proof.
  intros Ho. rewrite insert_app_r_alt, Nat.sub_diag by lia. simpl.
  rewrite insert_app_r_alt by lia.
  by replace (length s + 1 + o - length s) with (S o) by lia.
Qed.

Lemma swap_with_later_perm (rest : list T) x v o :
  rest !! o = Some v -> v :: <[o := x]> rest ≡ₚ x :: rest.
Proof.
  revert o. induction rest as [|y rest IH]; intros [|o] Ho; simpl in *; try done.
  - injection Ho as ->. apply perm_swap.
  - rewrite perm_swap. rewrite (IH o Ho). apply perm_swap.
Qed.

Lemma selection_outer_spec h (n : nat) : forall u s (Q : unit -> store T -> Prop),
  length u = n ->
  key_sorted k reverse s ->
  (forall x y, x ∈ s -> y ∈ u -> precedes k reverse x y) ->
  (forall L, L ≡ₚ s ++ u -> key_sorted k reverse L ->
     (key_sorted k reverse (s ++ u) -> L = s ++ u) ->
     Q tt (h ++ [L])) ->
  wp (for_range (length s) (length u)
        (selection_round (length h) k reverse (length s + length u)) tt)
     (h ++ [s ++ u]) Q.
Proof.
  induction n as [|n IH]; intros u s Q Hn Hs Hsu HQ.
  - destruct u; [|discriminate]. simpl. apply wp_ret.
    rewrite app_nil_r in *. by apply HQ.
  - destruct u as [|x rest]; [discriminate|]. injection Hn as Hn.
    simpl. apply wp_bind. unfold selection_round at 1.
    replace (length s + S (length rest) - (length s + 1)) with (length rest) by lia.
    apply wp_bind.
    pose proof (selection_scan_spec h rest (s ++ [x]) (length s) x) as Hscan.
    rewrite length_app, <-app_assoc in Hscan. simpl in Hscan.
    apply Hscan; [by apply list_lookup_middle|]. clear Hscan.
    destruct (select_best_spec rest (length s) x (length s + 1)) as (Hr & Hbx & Hall & Hid);
      [lia|].
    set (r := select_best k reverse (length s) x (length s + 1) rest) in *.
    (* the state after the round, and what the rest of the loop needs *)
    assert (forall v rest', r.2 = v -> v :: rest' ≡ₚ x :: rest ->
              (key_sorted k reverse (s ++ x :: rest) -> v :: rest' = x :: rest) ->
              wp (for_range (S (length s)) (length rest)
                    (selection_round (length h) k reverse (length s + S (length rest))) tt)
                 (h ++ [s ++ v :: rest']) Q) as Hnext.
    { intros v rest' Hv Hperm Hsame.
      assert (length rest' = length rest) as Hlen.
      { apply Permutation_length in Hperm. simpl in Hperm. lia. }
      specialize (IH rest' (s ++ [v])). rewrite length_app in IH. simpl in IH.
      rewrite Nat.add_1_r in IH. rewrite <-Hlen in *.
      replace (length s + S (length rest')) with (S (length s) + length rest') by lia.
      replace (s ++ v :: rest') with ((s ++ [v]) ++ rest') by (by rewrite <-app_assoc).
      assert (Forall (precedes k reverse v) (x :: rest)) as Hvall.
      { rewrite <-Hv. by constructor. }
      assert (v ∈ x :: rest) as Hvin.
      { rewrite <-Hperm. left. }
      apply IH; [lia| | |].
      - apply StronglySorted_app_2; [|done|repeat constructor].
        intros a b Ha Hb. apply list_elem_of_singleton in Hb as ->. by apply Hsu.
      - intros a b Ha Hb. assert (b ∈ x :: rest) as Hb'.
        { rewrite <-Hperm. by right. }
        apply elem_of_app in Ha as [Ha|Ha].
        + by apply Hsu.
        + apply list_elem_of_singleton in Ha as ->.
          rewrite Forall_forall in Hvall. by apply Hvall.
      - intros L HL HLs HLid. rewrite <-app_assoc in *. simpl in *.
        apply HQ.
        + rewrite HL. by rewrite Hperm.
        + done.
        + intros Hsorted. pose proof (Hsame Hsorted) as Heq.
          rewrite Heq in HLid. by apply HLid. }
    destruct (r.1 =? length s) eqn:Eb; simpl.
    + apply wp_ret. apply Nat.eqb_eq in Eb.
      destruct Hr as [Hr|(o & Ho & _)]; [|lia].
      apply Hnext; [by rewrite Hr|done|done].
    + apply Nat.eqb_neq in Eb.
      destruct Hr as [Hr|(o & Ho & Hv)]; [by rewrite Hr in Eb|].
      eapply wp_swap_items; [by apply list_lookup_middle| |].
      { rewrite Ho. rewrite lookup_app_r by lia.
        replace (length s + 1 + o - length s) with (S o) by lia. exact Hv. }
      rewrite Ho, swap_with_later by done.
      apply Hnext; [done|by apply swap_with_later_perm|].
      intros Hsorted. exfalso. apply Eb.
      apply StronglySorted_app_1_r in Hsorted.
      apply StronglySorted_cons in Hsorted as [Hx _].
      by rewrite (Hid Hx).
Qed.

Lemma selection_sort_spec h data l (Q : loc -> store T -> Prop) :
  h !! data = Some l ->
  (forall L, L ≡ₚ l -> key_sorted k reverse L ->
     (key_sorted k reverse l -> L = l) -> Q (length h) (h ++ [L])) ->
  wp (selection_sort data key reverse) h Q.
Proof.
  intros Hd HQ. unfold selection_sort.
  apply wp_bind. eapply wp_py_list; [done|].
  apply wp_bind. eapply wp_py_len; [apply lookup_last_object|].
  apply wp_bind.
  apply (selection_outer_spec h (length l) l []); [done|constructor| |].
  - intros x y Hx. inv Hx.
  - intros L HL HLs HLid. apply wp_ret. by apply HQ.
Qed.

End SelectionSort.

(** ** Insertion sort *)

Section InsertionSort.
Context {T K : Type} `{KeyOrder K}.
Variable key : key_arg T K.
Variable reverse : bool.
Abbreviation k := (_normalize_key key).
Implicit Types (h : store T) (l : list T).

Lemma canonicalSort_same_key_order l1 l2 :
  same_key_order k l1 l2 -> canonicalSort key reverse l1 = canonicalSort key reverse l2.
Proof.
  intros Hs. apply canonicalSort_unique; [apply canonicalSort_sorted|].
  eapply same_key_order_trans; [apply canonicalSort_stable|done].
Qed.

(** The [while] loop of insertion sort, started with the hole at the end of
    [s1]: it leaves the hole after a prefix [A] of [s1] whose last element
    may stand before [x], having moved the rest [B] of [s1], all of which
    must follow [x], one place to the right. *)
Lemma insertion_shift_spec h x (s1 : list T) :
  forall c s2 (Q : nat -> store T -> Prop),
  (forall A B c', s1 = A ++ B ->
     Forall (fun y => _should_swap (k y) (k x) reverse = true) B ->
     (forall y, last A = Some y -> precedes k reverse y x) ->
     Q (length A) (h ++ [A ++ c' :: B ++ s2])) ->
  wp (insertion_shift (length h) k reverse (k x) (length s1))
     (h ++ [s1 ++ c :: s2]) Q.
Proof.
  induction s1 as [|y s1 IH] using rev_ind; intros c s2 Q HQ.
  - simpl. apply wp_ret. apply (HQ [] [] c); [done|constructor|done].
  - rewrite length_app. simpl. rewrite Nat.add_1_r. cbn [insertion_shift].
    assert (((s1 ++ [y]) ++ c :: s2) !! length s1 = Some y) as Hy.
    { rewrite <-app_assoc. by apply list_lookup_middle. }
    apply wp_bind. eapply wp_getitem; [apply lookup_last_object|exact Hy|].
    destruct (_should_swap (k y) (k x) reverse) eqn:E.
    + apply wp_bind. eapply wp_getitem; [apply lookup_last_object|exact Hy|].
      apply wp_bind. eapply wp_setitem; [apply lookup_last_object| |].
      { rewrite !length_app. simpl. lia. }
      rewrite insert_last_object.
      replace (<[length s1 + 1 := y]> ((s1 ++ [y]) ++ c :: s2))
        with (s1 ++ y :: y :: s2).
      2:{ rewrite insert_app_r_alt by (rewrite length_app; simpl; lia).
          rewrite length_app. simpl. rewrite Nat.sub_diag. simpl.
          by rewrite <-app_assoc. }
      apply IH. intros A B c' -> HB HA.
      replace (A ++ c' :: B ++ y :: s2) with (A ++ c' :: (B ++ [y]) ++ s2)
        by (by rewrite <-app_assoc).
      apply HQ; [by rewrite app_assoc| |done].
      apply Forall_app. split; [done|]. by constructor.
    + apply wp_ret.
      replace (S (length s1)) with (length (s1 ++ [y]))
        by (rewrite length_app; simpl; lia).
      apply (HQ (s1 ++ [y]) [] c); [by rewrite app_nil_r|constructor|].
      intros y'. rewrite last_snoc. by intros [= <-].
Qed.

Lemma shifted_same_key_order x (B : list T) :
  Forall (fun y => _should_swap (k y) (k x) reverse = true) B ->
  same_key_order k (x :: B) (B ++ [x]).
Proof.
  induction 1 as [|y B Hy HB IH]; [done|]. intros c.
  rewrite (with_key_swap k c x y).
  2:{ intros E. symmetry in E. revert E. by eapply should_swap_neq. }
  simpl app. rewrite !(with_key_cons k c y). by rewrite IH.
Qed.

Lemma sorted_all_precede (A : list T) x :
  key_sorted k reverse A ->
  (forall y, last A = Some y -> precedes k reverse y x) ->
  Forall (fun a => precedes k reverse a x) A.
Proof.
  induction A as [|y A _] using rev_ind; intros Hs Hl; [constructor|].
  specialize (Hl y (last_snoc _ _)). apply Forall_app. split; [|by constructor].
  apply Forall_forall. intros a Ha.
  apply (precedes_trans k reverse a y x); [|done].
  eapply (StronglySorted_app_1_elem_of _ A [y]); [done|done|left].
Qed.

Lemma insertion_outer_spec h (u : list T) : forall s (Q : unit -> store T -> Prop),
  key_sorted k reverse s ->
  Q tt (h ++ [canonicalSort key reverse (s ++ u)]) ->
  wp (for_range (length s) (length u) (insertion_round (length h) k reverse) tt)
     (h ++ [s ++ u]) Q.
Proof.
  induction u as [|x u IH]; intros s Q Hs HQ.
  - simpl. apply wp_ret. rewrite app_nil_r in *.
    by rewrite canonicalSort_sorted_id in HQ.
  - simpl. apply wp_bind. unfold insertion_round at 1.
    apply wp_bind. eapply wp_getitem; [apply lookup_last_object|by apply list_lookup_middle|].
    apply wp_bind. apply insertion_shift_spec. intros A B c' -> HB HA.
    eapply wp_setitem; [apply lookup_last_object| |].
    { rewrite length_app. simpl. lia. }
    rewrite insert_last_object.
    replace (<[length A := x]> (A ++ c' :: B ++ u)) with ((A ++ x :: B) ++ u).
    2:{ rewrite insert_app_r_alt, Nat.sub_diag by lia. simpl.
        by rewrite <-app_assoc. }
    replace (S (length (A ++ B))) with (length (A ++ x :: B)).
    2:{ rewrite !length_app. simpl. lia. }
    apply IH.
    + apply StronglySorted_app in Hs as (HAB & HsA & HsB).
      pose proof (sorted_all_precede A x HsA HA) as HAx.
      apply StronglySorted_app_2; [|done|].
      * intros a b Ha Hb. inv Hb; [|by apply HAB].
        rewrite Forall_forall in HAx. by apply HAx.
      * constructor; [done|]. eapply Forall_impl; [exact HB|].
        intros b Hb. by apply should_swap_asym.
    + erewrite canonicalSort_same_key_order; [exact HQ|].
      rewrite <-!app_assoc. apply same_key_order_app; [apply same_key_order_refl|].
      change (x :: B ++ u) with ((x :: B) ++ u).
      replace (B ++ x :: u) with ((B ++ [x]) ++ u) by (by rewrite <-app_assoc).
      apply same_key_order_app; [|apply same_key_order_refl].
      by apply shifted_same_key_order.
Qed.

Lemma insertion_sort_spec h data l (Q : loc -> store T -> Prop) :
  h !! data = Some l ->
  Q (length h) (h ++ [canonicalSort key reverse l]) ->
  wp (insertion_sort data key reverse) h Q.
Proof.
  intros Hd HQ. unfold insertion_sort.
  apply wp_bind. eapply wp_py_list; [done|].
  apply wp_bind. eapply wp_py_len; [apply lookup_last_object|].
  apply wp_bind. destruct l as [|a l].
  - simpl. apply wp_ret. by apply wp_ret.
  - simpl length. rewrite Nat.sub_succ, Nat.sub_0_r.
    apply (insertion_outer_spec h l [a]); [repeat constructor|]. by apply wp_ret.
Qed.

End InsertionSort.

(** ** Merge sort *)

Section MergeSort.
Context {T K : Type} `{KeyOrder K}.
Variable key : key_arg T K.
Variable reverse : bool.
Abbreviation k := (_normalize_key key).
Implicit Types (h : store T) (l : list T).

Lemma lookup_older_object h ext p l : h !! p = Some l -> (h ++ ext) !! p = Some l.
Proof. intros Hp. rewrite lookup_app_l; [done|]. by eapply lookup_lt_Some. Qed.

Lemma key_sorted_short l : length l <= 1 -> key_sorted k reverse l.
Proof. destruct l as [|x [|y l]]; simpl; [repeat constructor..|lia]. Qed.

Lemma key_sorted_drop l i : key_sorted k reverse l -> key_sorted k reverse (drop i l).
Proof.
  intros Hs. rewrite <-(take_drop i l) in Hs. by apply StronglySorted_app_1_r in Hs.
Qed.

(** An element that must stand before the head of a sorted list stands
    strictly before all of the list. *)
Lemma sorted_all_follow a b l :
  key_sorted k reverse (a :: l) -> _should_swap (k a) (k b) reverse = true ->
  Forall (fun y => _should_swap (k y) (k b) reverse = true) (a :: l).
Proof.
  intros Hs Hab. apply StronglySorted_cons in Hs as [Ha _].
  constructor; [done|]. eapply Forall_impl; [exact Ha|]. intros y Hay.
  destruct (_should_swap (k y) (k b) reverse) eqn:E; [done|].
  unfold precedes in Hay.
  by rewrite (should_swap_le_trans _ _ _ _ Hay E) in Hab.
Qed.

Lemma merge_loop_spec h left right L R (fuel : nat) :
  forall i j res (Q : nat * nat -> store T -> Prop),
  h !! left = Some L -> h !! right = Some R ->
  (length L - i) + (length R - j) <= fuel ->
  key_sorted k reverse (res ++ drop i L) ->
  key_sorted k reverse (res ++ drop j R) ->
  (forall res' i' j',
     key_sorted k reverse (res' ++ drop i' L ++ drop j' R) ->
     same_key_order k (res' ++ drop i' L ++ drop j' R) (res ++ drop i L ++ drop j R) ->
     Q (i', j') (h ++ [res'])) ->
  wp (merge_loop fuel k reverse left right (length h) i j) (h ++ [res]) Q.
Proof.
  induction fuel as [|fuel IH]; intros i j res Q HL HR Hfuel HsL HsR HQ.
  - simpl. apply wp_bind. eapply wp_py_len; [by apply lookup_older_object|].
    apply wp_bind. eapply wp_py_len; [by apply lookup_older_object|].
    assert (length L <= i /\ length R <= j) as [Hi Hj] by lia.
    replace (i <? length L) with false by (symmetry; apply Nat.ltb_ge; lia).
    simpl. apply wp_ret. apply HQ; [|apply same_key_order_refl].
    by rewrite (drop_ge L i), (drop_ge R j), app_nil_r in * by lia.
  - cbn [merge_loop]. apply wp_bind. eapply wp_py_len; [by apply lookup_older_object|].
    apply wp_bind. eapply wp_py_len; [by apply lookup_older_object|].
    destruct (i <? length L) eqn:Ei; simpl.
    2:{ apply wp_ret. apply Nat.ltb_ge in Ei.
        apply HQ; [|apply same_key_order_refl].
        by rewrite (drop_ge L i) in * by lia. }
    destruct (j <? length R) eqn:Ej; simpl.
    2:{ apply wp_ret. apply Nat.ltb_ge in Ej.
        apply HQ; [|apply same_key_order_refl].
        by rewrite (drop_ge R j), app_nil_r in * by lia. }
    apply Nat.ltb_lt in Ei, Ej.
    destruct (lookup_lt_is_Some_2 L i Ei) as [a Ha].
    destruct (lookup_lt_is_Some_2 R j Ej) as [b Hb].
    rewrite (drop_S L a i Ha) in *. rewrite (drop_S R b j Hb) in *.
    apply wp_bind. eapply wp_getitem; [by apply lookup_older_object|done|].
    apply wp_bind. eapply wp_getitem; [by apply lookup_older_object|done|].
    destruct (_should_swap (k a) (k b) reverse) eqn:E.
    + apply wp_bind. eapply wp_getitem; [by apply lookup_older_object|done|].
      apply wp_bind. eapply wp_append; [apply lookup_last_object|].
      rewrite insert_last_object. rewrite Nat.add_1_r.
      apply IH; [done|done|lia| | |].
      * rewrite (drop_S L a i Ha).
        apply StronglySorted_app in HsL as (HL1 & HL2 & HL3).
        apply StronglySorted_app in HsR as (HR1 & HR2 & HR3).
        rewrite <-app_assoc. apply StronglySorted_app_2; [|done|].
        -- intros x y Hx Hy. inv Hy; [apply HR1; [done|left]|].
           by apply HL1.
        -- constructor; [done|].
           pose proof (sorted_all_follow a b _ HL3 E) as Hall.
           eapply Forall_impl; [exact Hall|]. intros y Hy. by apply should_swap_asym.
      * by rewrite <-app_assoc.
      * intros res' i' j' Hs' Hsame. apply HQ; [done|].
        eapply same_key_order_trans; [exact Hsame|].
        rewrite <-!app_assoc. apply same_key_order_app; [apply same_key_order_refl|].
        rewrite (drop_S L a i Ha).
        apply StronglySorted_app_1_r in HsL.
        pose proof (sorted_all_follow a b _ HsL E) as Hall.
        change ([b] ++ (a :: drop (S i) L) ++ drop (S j) R)
          with ((b :: a :: drop (S i) L) ++ drop (S j) R).
        replace ((a :: drop (S i) L) ++ b :: drop (S j) R)
          with (((a :: drop (S i) L) ++ [b]) ++ drop (S j) R)
          by (by rewrite <-app_assoc).
        apply same_key_order_app; [|apply same_key_order_refl].
        by apply (shifted_same_key_order key reverse).
    + apply wp_bind. eapply wp_getitem; [by apply lookup_older_object|done|].
      apply wp_bind. eapply wp_append; [apply lookup_last_object|].
      rewrite insert_last_object. rewrite Nat.add_1_r.
      apply IH; [done|done|lia| | |].
      * by rewrite <-app_assoc.
      * rewrite (drop_S R b j Hb).
        apply StronglySorted_app in HsL as (HL1 & HL2 & HL3).
        apply StronglySorted_app in HsR as (HR1 & HR2 & HR3).
        rewrite <-app_assoc. apply StronglySorted_app_2; [|done|].
        -- intros x y Hx Hy. inv Hy; [apply HL1; [done|left]|].
           by apply HR1.
        -- constructor; [done|]. apply StronglySorted_cons in HR3 as [Hb' _].
           constructor; [done|]. eapply Forall_impl; [exact Hb'|].
           intros y Hy. by apply (precedes_trans k reverse a b y).
      * intros res' i' j' Hs' Hsame. apply HQ; [done|].
        eapply same_key_order_trans; [exact Hsame|].
        rewrite <-!app_assoc. rewrite (drop_S R b j Hb). simpl.
        apply same_key_order_refl.
Qed.

Lemma merge_spec h left right L R (Q : loc -> store T -> Prop) :
  h !! left = Some L -> h !! right = Some R ->
  key_sorted k reverse L -> key_sorted k reverse R ->
  (forall M g1 g2, key_sorted k reverse M -> same_key_order k M (L ++ R) ->
     Q (length h) (h ++ [M; g1; g2])) ->
  wp (merge k reverse left right) h Q.
Proof.
  intros HL HR HsL HsR HQ. unfold merge.
  apply wp_bind. apply wp_new_list.
  apply wp_bind. eapply wp_py_len; [by apply lookup_older_object|].
  apply wp_bind. eapply wp_py_len; [by apply lookup_older_object|].
  apply wp_bind. eapply merge_loop_spec; [done|done|lia|done|done|].
  intros res i j Hs Hsame. simpl in Hsame. rewrite !drop_0 in Hsame.
  apply wp_bind. eapply wp_slice_from; [by apply lookup_older_object|].
  apply wp_bind. eapply wp_extend.
  { apply lookup_older_object, lookup_last_object. }
  { apply lookup_last_object. }
  rewrite insert_app_l by (rewrite length_app; simpl; lia).
  rewrite insert_last_object.
  apply wp_bind. eapply wp_slice_from.
  { rewrite <-app_assoc. by apply lookup_older_object. }
  apply wp_bind. eapply wp_extend.
  { do 2 apply lookup_older_object. apply lookup_last_object. }
  { apply lookup_last_object. }
  rewrite !insert_app_l by (rewrite !length_app; simpl; lia).
  rewrite insert_last_object. apply wp_ret.
  rewrite <-!app_assoc. simpl. by apply HQ.
Qed.

Lemma halves_shorter (n : nat) : 2 <= n -> n / 2 < n /\ 0 < n / 2.
Proof.
  intros Hn. split.
  - apply Nat.div_lt; lia.
  - apply Nat.div_str_pos. lia.
Qed.

Lemma merge_sort_rec_spec (fuel : nat) :
  forall h seq l (Q : loc -> store T -> Prop),
  h !! seq = Some l -> length l <= fuel ->
  (forall r ext, (h ++ ext) !! r = Some (canonicalSort key reverse l) ->
     r = seq \/ length h <= r -> Q r (h ++ ext)) ->
  wp (merge_sort_rec fuel k reverse seq) h Q.
Proof.
  induction fuel as [|fuel IH]; intros h seq l Q Hseq Hfuel HQ.
  - simpl. apply wp_bind. eapply wp_py_len; [done|].
    replace (length l <=? 1) with true by (symmetry; apply Nat.leb_le; lia).
    apply wp_ret. rewrite <-(app_nil_r h). apply HQ; [|by left].
    by rewrite app_nil_r, canonicalSort_sorted_id by (apply key_sorted_short; lia).
  - cbn [merge_sort_rec]. apply wp_bind. eapply wp_py_len; [done|].
    destruct (length l <=? 1) eqn:El.
    { apply Nat.leb_le in El.
      apply wp_ret. rewrite <-(app_nil_r h). apply HQ; [|by left].
      by rewrite app_nil_r, canonicalSort_sorted_id by (by apply key_sorted_short). }
    apply Nat.leb_gt in El.
    destruct (halves_shorter (length l)) as [Hmid1 Hmid2]; [lia|].
    apply wp_bind. eapply wp_py_len; [done|].
    apply wp_bind. eapply wp_slice_to; [done|].
    apply wp_bind. eapply IH; [apply lookup_last_object| |].
    { rewrite length_take. lia. }
    intros r1 ext1 Hr1 _.
    apply wp_bind. eapply wp_slice_from.
    { rewrite <-app_assoc. by apply lookup_older_object. }
    apply wp_bind. eapply IH; [apply lookup_last_object| |].
    { rewrite length_drop. lia. }
    intros r2 ext2 Hr2 _.
    eapply merge_spec; [by do 2 apply lookup_older_object|done
                        |apply canonicalSort_sorted..|].
    intros M g1 g2 HsM HsameM.
    match goal with |- Q (length ?s) _ => remember s as h2 eqn:Eh2 end.
    assert (exists ext, h2 = h ++ ext) as [ext Hext].
    { subst h2. eexists. by rewrite <-!app_assoc. }
    replace (h2 ++ [M; g1; g2]) with (h ++ (ext ++ [M; g1; g2]))
      by (by rewrite Hext, <-app_assoc).
    apply HQ.
    + rewrite app_assoc, <-Hext, list_lookup_middle by done. f_equal.
      apply canonicalSort_unique; [done|].
      eapply same_key_order_trans; [exact HsameM|].
      pose proof (same_key_order_app k _ _ _ _
        (canonicalSort_stable key reverse (take (length l / 2) l))
        (canonicalSort_stable key reverse (drop (length l / 2) l))) as Hparts.
      by rewrite take_drop in Hparts.
    + right. rewrite Hext, length_app. lia.
Qed.

Lemma merge_sort_spec h data l (Q : loc -> store T -> Prop) :
  h !! data = Some l ->
  (forall r ext, (h ++ ext) !! r = Some (canonicalSort key reverse l) ->
     length h <= r -> Q r (h ++ ext)) ->
  wp (merge_sort data key reverse) h Q.
Proof.
  intros Hd HQ. unfold merge_sort.
  apply wp_bind. eapply wp_py_list; [done|].
  apply wp_bind. eapply wp_py_len; [apply lookup_last_object|].
  eapply merge_sort_rec_spec; [apply lookup_last_object|done|].
  intros r ext Hr Hfresh. rewrite <-app_assoc in *. apply HQ; [done|].
  rewrite length_app in Hfresh. simpl in Hfresh. lia.
Qed.

End MergeSort.

(** ** Quick sort *)

Section QuickSort.
Context {T K : Type} `{KeyOrder K}.
Variable key : key_arg T K.
Variable reverse : bool.
Abbreviation k := (_normalize_key key).
Implicit Types (h : store T) (l : list T).

Lemma partition_loop_spec h seq pk (todo : list T) :
  forall pre A B C (Q : unit -> store T -> Prop),
  h !! seq = Some (pre ++ todo) ->
  Q tt (h ++ [A ++ List.filter (in_left k reverse pk) todo;
              B ++ List.filter (in_middle k pk) todo;
              C ++ List.filter (in_right k reverse pk) todo]) ->
  wp (for_range (length pre) (length todo)
        (fun i _ => item <- getitem seq i ;;
           partition_step k reverse pk (length h) (length h + 1) (length h + 2) item) tt)
     (h ++ [A; B; C]) Q.
Proof.
  induction todo as [|x todo IH]; intros pre A B C Q Hseq HQ.
  - simpl in *. apply wp_ret. by rewrite !app_nil_r in HQ.
  - simpl. apply wp_bind. apply wp_bind.
    eapply wp_getitem; [by apply lookup_older_object|by apply list_lookup_middle|].
    specialize (IH (pre ++ [x])). rewrite length_app, <-app_assoc in IH.
    simpl in IH. rewrite Nat.add_1_r in IH.
    unfold partition_step. simpl in HQ.
    unfold in_left, in_middle, in_right in HQ.
    destruct (key_eq (k x) pk) eqn:Eeq; simpl in HQ.
    + eapply wp_append.
      { rewrite lookup_app_r by lia.
        by replace (length h + 1 - length h) with 1 by lia. }
      rewrite insert_app_r_alt by lia.
      replace (length h + 1 - length h) with 1 by lia. simpl.
      apply IH; [done|]. by rewrite <-!app_assoc.
    + destruct (_should_swap (k x) pk reverse) eqn:Ess; simpl in HQ.
      * eapply wp_append.
        { rewrite lookup_app_r by lia.
          by replace (length h + 2 - length h) with 2 by lia. }
        rewrite insert_app_r_alt by lia.
        replace (length h + 2 - length h) with 2 by lia. simpl.
        apply IH; [done|]. by rewrite <-!app_assoc.
      * eapply wp_append.
        { rewrite lookup_app_r by lia. by rewrite Nat.sub_diag. }
        rewrite insert_app_r_alt by lia. rewrite Nat.sub_diag. simpl.
        apply IH; [done|]. by rewrite <-!app_assoc.
Qed.

(** Every element goes to exactly one bucket. *)
Lemma partition_length pk l :
  length (List.filter (in_left k reverse pk) l) + length (List.filter (in_middle k pk) l)
  + length (List.filter (in_right k reverse pk) l) = length l.
Proof.
  induction l as [|x l IH]; simpl; [done|].
  unfold in_left, in_middle, in_right in *.
  destruct (key_eq (k x) pk), (_should_swap (k x) pk reverse); simpl; lia.
Qed.

(** The middle bucket holds the pivot, so the two other buckets are strictly
    shorter than the partitioned list. *)
Lemma partition_shorter l i pivot :
  l !! i = Some pivot ->
  length (List.filter (in_left k reverse (k pivot)) l) < length l /\
  length (List.filter (in_right k reverse (k pivot)) l) < length l.
Proof.
  intros Hp. pose proof (partition_length (k pivot) l) as Hlen.
  assert (0 < length (List.filter (in_middle k (k pivot)) l)); [|lia].
  assert (pivot ∈ List.filter (in_middle k (k pivot)) l) as Hin.
  { apply list_elem_of_In, List.filter_In. split.
    - apply list_elem_of_In. by eapply list_elem_of_lookup_2.
    - apply key_eq_refl. }
  destruct (List.filter (in_middle k (k pivot)) l); [inv Hin|simpl; lia].
Qed.

(** A bucket chosen by key holds all the elements of a key or none. *)
Lemma with_key_bucket (f : K -> bool) c l :
  with_key k c (List.filter (fun x => f (k x)) l)
  = if f c then with_key k c l else [].
Proof.
  induction l as [|x l IH]; [by destruct (f c)|].
  cbn [List.filter]. destruct (f (k x)) eqn:Ef.
  - rewrite !with_key_cons, IH. destruct (key_eq (k x) c) eqn:E; simpl.
    + apply key_eq_spec in E. subst c. by rewrite Ef.
    + done.
  - rewrite with_key_cons, IH. destruct (key_eq (k x) c) eqn:E; simpl; [|done].
    apply key_eq_spec in E. subst c. by rewrite Ef.
Qed.

Lemma partition_same_key_order pk l :
  same_key_order k
    (List.filter (in_left k reverse pk) l ++ List.filter (in_middle k pk) l
     ++ List.filter (in_right k reverse pk) l) l.
Proof.
  intros c. rewrite !with_key_app. unfold in_left, in_middle, in_right.
  rewrite (with_key_bucket
             (fun a => negb (key_eq a pk) && negb (_should_swap a pk reverse))).
  rewrite (with_key_bucket (fun a => key_eq a pk)).
  rewrite (with_key_bucket
             (fun a => negb (key_eq a pk) && _should_swap a pk reverse)).
  destruct (key_eq c pk), (_should_swap c pk reverse); simpl;
    by rewrite ?app_nil_r.
Qed.

Lemma partition_sorted pk (L M R : list T) :
  key_sorted k reverse L -> key_sorted k reverse R ->
  Forall (fun x => in_left k reverse pk x = true) L ->
  Forall (fun x => in_middle k pk x = true) M ->
  Forall (fun x => in_right k reverse pk x = true) R ->
  key_sorted k reverse (L ++ M ++ R).
Proof.
  intros HsL HsR HL HM HR. rewrite Forall_forall in HL, HM, HR.
  unfold in_left, in_middle, in_right in *.
  assert (forall x, x ∈ L -> _should_swap (k x) pk reverse = false) as HL'.
  { intros x Hx. apply HL in Hx. apply andb_true_iff in Hx as [_ Hx].
    by apply negb_true_iff in Hx. }
  assert (forall x, x ∈ M -> k x = pk) as HM'.
  { intros x Hx. by apply key_eq_spec, HM. }
  assert (forall x, x ∈ R -> _should_swap (k x) pk reverse = true) as HR'.
  { intros x Hx. apply HR in Hx. by apply andb_true_iff in Hx as [_ Hx]. }
  apply StronglySorted_app_2; [|done|apply StronglySorted_app_2; [|..|done]].
  - intros x y Hx Hy. unfold precedes. apply elem_of_app in Hy as [Hy|Hy].
    + rewrite (HM' y Hy). by apply HL'.
    + apply (should_swap_le_trans _ pk); [by apply HL'|].
      by apply should_swap_asym, HR'.
  - intros x y Hx Hy. unfold precedes. rewrite (HM' x Hx).
    by apply should_swap_asym, HR'.
  - clear -HM'. induction M as [|x M IH]; [constructor|].
    constructor.
    + apply IH. intros y Hy. apply HM'. by right.
    + apply Forall_forall. intros y Hy. unfold precedes.
      rewrite (HM' x), (HM' y) by (by constructor). apply should_swap_irrefl.
Qed.

Lemma filter_Forall (P : T -> bool) l : Forall (fun x => P x = true) (List.filter P l).
Proof.
  apply Forall_forall. intros x Hx. by apply list_elem_of_In, List.filter_In in Hx as [_ ?].
Qed.

Lemma Forall_perm_canonicalSort (P : T -> Prop) l :
  Forall P l -> Forall P (canonicalSort key reverse l).
Proof. intros HP. by rewrite canonicalSort_perm. Qed.

Lemma quick_sort_rec_spec (fuel : nat) :
  forall h seq l (Q : loc -> store T -> Prop),
  h !! seq = Some l -> length l <= fuel ->
  (forall r ext, (h ++ ext) !! r = Some (canonicalSort key reverse l) ->
     r = seq \/ length h <= r -> Q r (h ++ ext)) ->
  wp (quick_sort_rec fuel k reverse seq) h Q.
Proof.
  induction fuel as [|fuel IH]; intros h seq l Q Hseq Hfuel HQ.
  - simpl. apply wp_bind. eapply wp_py_len; [done|].
    replace (length l <=? 1) with true by (symmetry; apply Nat.leb_le; lia).
    apply wp_ret. rewrite <-(app_nil_r h). apply HQ; [|by left].
    by rewrite app_nil_r, (canonicalSort_sorted_id key reverse)
      by (apply (key_sorted_short key reverse); lia).
  - cbn [quick_sort_rec]. apply wp_bind. eapply wp_py_len; [done|].
    destruct (length l <=? 1) eqn:El.
    { apply Nat.leb_le in El.
      apply wp_ret. rewrite <-(app_nil_r h). apply HQ; [|by left].
      by rewrite app_nil_r, (canonicalSort_sorted_id key reverse)
        by (by apply (key_sorted_short key reverse)). }
    apply Nat.leb_gt in El.
    destruct (halves_shorter (length l)) as [Hmid _]; [lia|].
    destruct (lookup_lt_is_Some_2 l _ Hmid) as [pivot Hpivot].
    destruct (partition_shorter l _ pivot Hpivot) as [HlenL HlenR].
    apply wp_bind. eapply wp_py_len; [done|].
    apply wp_bind. eapply wp_getitem; [done|done|].
    apply wp_bind. apply wp_new_list.
    apply wp_bind. apply wp_new_list.
    apply wp_bind. apply wp_new_list.
    rewrite <-!app_assoc. simpl. rewrite !length_app. simpl.
    apply wp_bind. unfold for_in.
    apply wp_bind. eapply wp_py_len; [by apply lookup_older_object|].
    replace (length h + 1 + 1) with (length h + 2) by lia.
    apply (partition_loop_spec h seq (k pivot) l [] [] [] []); [done|]. simpl.
    set (L := List.filter (in_left k reverse (k pivot)) l) in *.
    set (M := List.filter (in_middle k (k pivot)) l) in *.
    set (R := List.filter (in_right k reverse (k pivot)) l) in *.
    apply wp_bind. eapply IH.
    { rewrite lookup_app_r by lia. by rewrite Nat.sub_diag. }
    { lia. }
    intros r1 ext1 Hr1 _.
    apply wp_bind. eapply wp_concat; [exact Hr1| |].
    { apply lookup_older_object. rewrite lookup_app_r by lia.
      by replace (length h + 1 - length h) with 1 by lia. }
    apply wp_bind. eapply IH.
    { do 2 apply lookup_older_object. rewrite lookup_app_r by lia.
      by replace (length h + 2 - length h) with 2 by lia. }
    { lia. }
    intros r2 ext2 Hr2 _.
    eapply wp_concat; [|exact Hr2|].
    { apply lookup_older_object. apply lookup_last_object. }
    match goal with |- Q (length ?s) _ => remember s as h2 eqn:Eh2 end.
    assert (exists ext, h2 = h ++ ext) as [ext Hext].
    { subst h2. eexists. by rewrite <-!app_assoc. }
    match goal with |- Q _ (h2 ++ [?res]) =>
      replace (h2 ++ [res]) with (h ++ (ext ++ [res]))
        by (by rewrite Hext, <-!app_assoc)
    end.
    apply HQ.
    + rewrite app_assoc, <-Hext, lookup_last_object. f_equal.
      apply canonicalSort_unique.
      * rewrite <-app_assoc.
        apply (partition_sorted (k pivot)); try apply canonicalSort_sorted;
          try apply Forall_perm_canonicalSort; apply filter_Forall.
      * eapply same_key_order_trans; [|apply (partition_same_key_order (k pivot))].
        rewrite <-app_assoc.
        apply same_key_order_app; [apply canonicalSort_stable|].
        apply same_key_order_app; [apply same_key_order_refl|apply canonicalSort_stable].
    + right. rewrite Hext, length_app. lia.
Qed.

Lemma quick_sort_spec h data l (Q : loc -> store T -> Prop) :
  h !! data = Some l ->
  (forall r ext, (h ++ ext) !! r = Some (canonicalSort key reverse l) ->
     length h <= r -> Q r (h ++ ext)) ->
  wp (quick_sort data key reverse) h Q.
Proof.
  intros Hd HQ. unfold quick_sort.
  apply wp_bind. eapply wp_py_list; [done|].
  apply wp_bind. eapply wp_py_len; [apply lookup_last_object|].
  eapply quick_sort_rec_spec; [apply lookup_last_object|done|].
  intros r ext Hr Hfresh. rewrite <-app_assoc in *. apply HQ; [done|].
  rewrite length_app in Hfresh. simpl in Hfresh. lia.
Qed.

End QuickSort.

(** ** What every algorithm does *)

Section AllAlgorithms.
Context {T K : Type} `{KeyOrder K}.
Variable key : key_arg T K.
Variable reverse : bool.
Abbreviation k := (_normalize_key key).
Implicit Types (h : store T) (l : list T).

(** A call creates objects after those of the store it starts from, which
    it leaves as they are, and returns one of the objects it created; the
    contents [out] of that object is a sorted permutation of the input. *)
Lemma algorithm_run (a : algorithm) h data l :
  h !! data = Some l ->
  exists r ext out,
    algorithm_fn a K _ data key reverse h = Some (r, h ++ ext) /\
    length h <= r /\
    (h ++ ext) !! r = Some out /\
    out ≡ₚ l /\
    key_sorted k reverse out /\
    (key_sorted k reverse l -> out = l) /\
    (a <> Selection -> out = canonicalSort key reverse l).
Proof.
  intros Hd.
  set (Q := fun (r : loc) (h' : store T) =>
    exists ext out, h' = h ++ ext /\ length h <= r /\ h' !! r = Some out /\
      out ≡ₚ l /\ key_sorted k reverse out /\
      (key_sorted k reverse l -> out = l) /\
      (a <> Selection -> out = canonicalSort key reverse l)).
  assert (wp (algorithm_fn a K _ data key reverse) h Q) as Hwp.
  { assert (forall r ext, (h ++ ext) !! r = Some (canonicalSort key reverse l) ->
              length h <= r -> Q r (h ++ ext)) as Hcanonical.
    { intros r ext Hr Hfresh. exists ext, (canonicalSort key reverse l).
      split_and!; [done|done|done|apply canonicalSort_perm
                   |apply canonicalSort_sorted| |done].
      intros Hs. by apply canonicalSort_sorted_id. }
    destruct a; simpl.
    - eapply bubble_sort_spec; [done|].
      apply Hcanonical; [apply lookup_last_object|done].
    - eapply selection_sort_spec; [done|]. intros L HL HLs HLid.
      exists [L], L. split_and!; [done|done|apply lookup_last_object|done..].
    - eapply insertion_sort_spec; [done|].
      apply Hcanonical; [apply lookup_last_object|done].
    - by eapply merge_sort_spec.
    - by eapply quick_sort_spec. }
  apply wp_elim in Hwp as (r & h' & Hrun & ext & out & -> & Hrest).
  exists r, ext, out. by split.
Qed.

Lemma algorithm_result (a : algorithm) h data l :
  h !! data = Some l ->
  exists out,
    result_of (algorithm_fn a K _ data key reverse) h = Some out /\
    out ≡ₚ l /\
    key_sorted k reverse out /\
    (key_sorted k reverse l -> out = l) /\
    (a <> Selection -> out = canonicalSort key reverse l).
Proof.
  intros Hd. destruct (algorithm_run a h data l Hd)
    as (r & ext & out & Hrun & _ & Hr & Hrest).
  exists out. split; [|done]. unfold result_of. by rewrite Hrun.
Qed.

(** Two sorted permutations of one list show the same keys in the same
    order. *)
Lemma key_sorted_perm_keys l1 l2 :
  l1 ≡ₚ l2 -> key_sorted k reverse l1 -> key_sorted k reverse l2 ->
  k <$> l1 = k <$> l2.
Proof.
  intros Hp Hs1 Hs2.
  apply (StronglySorted_unique_strong
           (fun a b => _should_swap a b reverse = false)).
  - intros a b _ _. apply should_swap_total.
  - by apply (StronglySorted_fmap k (precedes k reverse)).
  - by apply (StronglySorted_fmap k (precedes k reverse)).
  - by rewrite Hp.
Qed.

Lemma with_key_perm c l1 l2 : l1 ≡ₚ l2 -> with_key k c l1 ≡ₚ with_key k c l2.
Proof.
  induction 1 as [|x l1 l2 _ IH|x y l|l1 l2 l3 _ IH1 _ IH2].
  - done.
  - rewrite !(with_key_cons k c x). by rewrite IH.
  - rewrite !with_key_cons.
    destruct (key_eq (k x) c), (key_eq (k y) c); simpl; try done. apply perm_swap.
  - by rewrite IH1.
Qed.

Lemma with_key_nodup c l : NoDup (k <$> l) -> length (with_key k c l) <= 1.
Proof.
  induction l as [|x l IH]; intros Hnd; [simpl; lia|].
  rewrite fmap_cons in Hnd. apply NoDup_cons in Hnd as [Hx Hnd].
  rewrite with_key_cons. destruct (key_eq (k x) c) eqn:E; simpl; [|by apply IH].
  apply key_eq_spec in E. subst c.
  destruct (with_key k (k x) l) as [|y w] eqn:Ew; [simpl; lia|].
  exfalso. apply Hx.
  assert (y ∈ with_key k (k x) l) as Hy by (rewrite Ew; left).
  apply with_key_elem in Hy as [Hy <-]. apply list_elem_of_fmap. eauto.
Qed.

(** When no two elements have the same key, every permutation keeps the
    order of the elements of equal key. *)
Lemma perm_nodup_same_key_order l1 l2 :
  l1 ≡ₚ l2 -> NoDup (k <$> l1) -> same_key_order k l1 l2.
Proof.
  intros Hp Hnd c. pose proof (with_key_perm c l1 l2 Hp) as Hc.
  pose proof (with_key_nodup c l1 Hnd) as Hlen.
  destruct (with_key k c l1) as [|x [|y w]]; simpl in Hlen; [| |lia].
  - symmetry. by apply Permutation_nil.
  - by apply Permutation_singleton_l.
Qed.

Lemma key_sorted_perm_nodup l1 l2 :
  l1 ≡ₚ l2 -> NoDup (k <$> l1) ->
  key_sorted k reverse l1 -> key_sorted k reverse l2 -> l1 = l2.
Proof.
  intros Hp Hnd Hs1 Hs2. apply (key_sorted_unique k reverse); [done..|].
  by apply perm_nodup_same_key_order.
Qed.

End AllAlgorithms.

Section Reversal.
Context {T K : Type} `{KeyOrder K}.
Variable k : T -> K.

(** The reversal of a list sorted in one direction is sorted in the
    other. *)
Lemma key_sorted_reverse (reverse : bool) (l : list T) :
  key_sorted k reverse l -> key_sorted k (negb reverse) (rev l).
Proof.
  unfold key_sorted. induction 1 as [|x l Hs IH Hx]; simpl; [constructor|].
  apply StronglySorted_app_2; [|done|repeat constructor].
  intros y z Hy Hz. apply list_elem_of_singleton in Hz as ->.
  unfold precedes. rewrite should_swap_flip, negb_involutive.
  rewrite Forall_forall in Hx. apply Hx.
  by apply list_elem_of_In, in_rev, list_elem_of_In in Hy.
Qed.

End Reversal.

(** ** The claims of the specification *)

Section Claims.
Context {T K : Type} `{KeyOrder K}.
Implicit Types (h : store T) (l : list T) (key : key_arg T K).

(** C1 (as amended).  For every algorithm the returned list is a permutation
    of the input, sorted by key under the policy, with the keys of the
    canonical stable sort in the same order; for [bubble_sort],
    [insertion_sort], [merge_sort] and [quick_sort] it is the canonical
    stable sort of the input itself. *)
Theorem sorts_agree_with_canonicalSort (a : algorithm) key (reverse : bool) h data l :
  h !! data = Some l ->
  exists out,
    result_of (algorithm_fn a K _ data key reverse) h = Some out /\
    out ≡ₚ l /\
    key_sorted (_normalize_key key) reverse out /\
    _normalize_key key <$> out = _normalize_key key <$> canonicalSort key reverse l /\
    (a <> Selection -> out = canonicalSort key reverse l).
Proof.
  intros Hd.
  destruct (algorithm_result key reverse a h data l Hd)
    as (out & Hres & Hperm & Hsorted & _ & Hstable).
  exists out. split_and!; [done..| |done].
  apply (key_sorted_perm_keys key reverse); [|done|apply canonicalSort_sorted].
  by rewrite Hperm, canonicalSort_perm.
Qed.

(** C2 (as amended).  [bubble_sort], [insertion_sort], [merge_sort] and
    [quick_sort] are stable: the elements of any one key stand in the output
    in the order they have in the input. *)
Theorem stable_algorithms_keep_input_order (a : algorithm) key (reverse : bool) h data l :
  a <> Selection ->
  h !! data = Some l ->
  exists out,
    result_of (algorithm_fn a K _ data key reverse) h = Some out /\
    same_key_order (_normalize_key key) out l.
Proof.
  intros Ha Hd.
  destruct (algorithm_result key reverse a h data l Hd)
    as (out & Hres & _ & _ & _ & Hstable).
  exists out. split; [done|]. rewrite (Hstable Ha). apply canonicalSort_stable.
Qed.

(** C3 (as amended).  With [reverse=True] every algorithm returns a list
    whose keys are those of the reversed canonical ascending sort, in the
    same order, and the reversed canonical ascending sort itself when no two
    elements of the input have the same key; the four stable algorithms
    return the canonical stable sort for [reverse=True], in which elements
    of equal key keep their input order. *)
Theorem reverse_sort_reverses_keys (a : algorithm) key h data l :
  h !! data = Some l ->
  exists out,
    result_of (algorithm_fn a K _ data key true) h = Some out /\
    _normalize_key key <$> out = rev (_normalize_key key <$> canonicalSort key false l) /\
    (NoDup (_normalize_key key <$> l) -> out = rev (canonicalSort key false l)) /\
    (a <> Selection -> out = canonicalSort key true l).
Proof.
  intros Hd.
  destruct (algorithm_result key true a h data l Hd)
    as (out & Hres & Hperm & Hsorted & _ & Hstable).
  assert (key_sorted (_normalize_key key) true (rev (canonicalSort key false l)))
    as Hrev.
  { apply (key_sorted_reverse (_normalize_key key) false), canonicalSort_sorted. }
  assert (out ≡ₚ rev (canonicalSort key false l)) as Hperm'.
  { by rewrite Hperm, <-Permutation_rev, canonicalSort_perm. }
  exists out. split_and!; [done| | |done].
  - rewrite <-map_rev. by apply (key_sorted_perm_keys key true).
  - intros Hnd. apply (key_sorted_perm_nodup key true); [done| |done..].
    by rewrite Hperm.
Qed.

(** C4.  A call leaves the input sequence, and every other list that
    existed before the call, as it was, and returns a list that did not
    exist before the call. *)
Theorem input_unchanged_result_new (a : algorithm) key (reverse : bool) h data l :
  h !! data = Some l ->
  exists r h',
    algorithm_fn a K _ data key reverse h = Some (r, h') /\
    h' !! data = Some l /\
    r <> data /\
    h !! r = None /\
    is_Some (h' !! r) /\
    (forall p o, h !! p = Some o -> h' !! p = Some o).
Proof.
  intros Hd.
  destruct (algorithm_run key reverse a h data l Hd)
    as (r & ext & out & Hrun & Hfresh & Hr & _).
  exists r, (h ++ ext). split_and!; [done| | | |by eexists|].
  - by apply lookup_older_object.
  - apply lookup_lt_Some in Hd. lia.
  - by apply lookup_ge_None.
  - intros p o. apply lookup_older_object.
Qed.

(** C5.  The ordering policy: [_should_swap] is [>] on the keys for
    [reverse=False] and [<] for [reverse=True], and is false on equal keys
    for both. *)
Theorem should_swap_policy (a_key b_key : K) :
  (_should_swap a_key b_key false = true <-> key_gt a_key b_key = true) /\
  (_should_swap a_key b_key true = true <-> key_lt a_key b_key = true) /\
  (forall reverse, key_eq a_key b_key && _should_swap a_key b_key reverse = false) /\
  (forall reverse, _should_swap a_key a_key reverse = false).
Proof.
  split_and!; [done|done| |].
  - intros reverse. destruct (_should_swap a_key b_key reverse) eqn:E.
    + by rewrite (should_swap_key_eq _ _ _ E).
    + apply andb_false_r.
  - intros reverse. apply should_swap_irrefl.
Qed.

(** C6.  Each of the three selectors forwards [sort] to the strategy it
    holds, arguments and result unchanged; a call made before an assignment
    to [strategy] is served by the strategy held before, the next call by
    the strategy assigned. *)
Theorem selector_forwards_to_held_strategy :
  (forall (self : SorterABC T) data key reverse,
     SorterABC_sort self data key reverse
     = abc_sort (abc_strategy self) K _ data key reverse) /\
  (forall (self : SorterProto T) data key reverse,
     SorterProto_sort self data key reverse
     = proto_sort (proto_strategy self) K _ data key reverse) /\
  (forall (self : SorterCallable T) data key reverse,
     SorterCallable_sort self data key reverse
     = callable_strategy self K _ data key reverse) /\
  (forall (self : SorterABC T) s' data1 key1 reverse1 data2 key2 reverse2 h,
     session (fun self K o => @SorterABC_sort T K o self) SorterABC_set_strategy self
       [Sort _ data1 key1 reverse1; Assign s'; Sort _ data2 key2 reverse2] h
     = (r1 <- abc_sort (abc_strategy self) K _ data1 key1 reverse1 ;;
        r2 <- abc_sort s' K _ data2 key2 reverse2 ;;
        ret ([r1; r2], {| abc_strategy := s' |})) h) /\
  (forall (self : SorterProto T) s' data1 key1 reverse1 data2 key2 reverse2 h,
     session (fun self K o => @SorterProto_sort T K o self) SorterProto_set_strategy self
       [Sort _ data1 key1 reverse1; Assign s'; Sort _ data2 key2 reverse2] h
     = (r1 <- proto_sort (proto_strategy self) K _ data1 key1 reverse1 ;;
        r2 <- proto_sort s' K _ data2 key2 reverse2 ;;
        ret ([r1; r2], {| proto_strategy := s' |})) h) /\
  (forall (self : SorterCallable T) s' data1 key1 reverse1 data2 key2 reverse2 h,
     session (fun self K o => @SorterCallable_sort T K o self)
       SorterCallable_set_strategy self
       [Sort _ data1 key1 reverse1; Assign s'; Sort _ data2 key2 reverse2] h
     = (r1 <- callable_strategy self K _ data1 key1 reverse1 ;;
        r2 <- s' K _ data2 key2 reverse2 ;;
        ret ([r1; r2], {| callable_strategy := s' |})) h).
Proof.
  split_and!; try done.
  - intros self s' data1 key1 reverse1 data2 key2 reverse2 h.
    simpl. unfold bind, ret, SorterABC_sort. simpl.
    destruct (abc_sort (abc_strategy self) K _ data1 key1 reverse1 h)
      as [[r1 h1]|]; [|done].
    by destruct (abc_sort s' K _ data2 key2 reverse2 h1) as [[r2 h2]|].
  - intros self s' data1 key1 reverse1 data2 key2 reverse2 h.
    simpl. unfold bind, ret, SorterProto_sort. simpl.
    destruct (proto_sort (proto_strategy self) K _ data1 key1 reverse1 h)
      as [[r1 h1]|]; [|done].
    by destruct (proto_sort s' K _ data2 key2 reverse2 h1) as [[r2 h2]|].
  - intros self s' data1 key1 reverse1 data2 key2 reverse2 h.
    simpl. unfold bind, ret, SorterCallable_sort. simpl.
    destruct (callable_strategy self K _ data1 key1 reverse1 h)
      as [[r1 h1]|]; [|done].
    by destruct (s' K _ data2 key2 reverse2 h1) as [[r2 h2]|].
Qed.

Lemma merge_sort_rec_short (fuel : nat) (k : T -> K) reverse h seq l
    (Q : loc -> store T -> Prop) :
  h !! seq = Some l -> length l <= 1 -> Q seq h ->
  wp (merge_sort_rec fuel k reverse seq) h Q.
Proof.
  intros Hseq Hlen HQ.
  destruct fuel; simpl; (apply wp_bind; eapply wp_py_len; [done|]);
    (replace (length l <=? 1) with true by (symmetry; by apply Nat.leb_le));
    by apply wp_ret.
Qed.

Lemma quick_sort_rec_short (fuel : nat) (k : T -> K) reverse h seq l
    (Q : loc -> store T -> Prop) :
  h !! seq = Some l -> length l <= 1 -> Q seq h ->
  wp (quick_sort_rec fuel k reverse seq) h Q.
Proof.
  intros Hseq Hlen HQ.
  destruct fuel; simpl; (apply wp_bind; eapply wp_py_len; [done|]);
    (replace (length l <=? 1) with true by (symmetry; by apply Nat.leb_le));
    by apply wp_ret.
Qed.

(** C7.  An empty or single-element input is no error: the call returns a
    new list, equal to the input, and creates no other object. *)
Theorem short_input_returned_as_new_list (a : algorithm) key (reverse : bool) h data l :
  h !! data = Some l ->
  length l <= 1 ->
  algorithm_fn a K _ data key reverse h = Some (length h, h ++ [l]).
Proof.
  intros Hd Hlen.
  pose proof (key_sorted_short key reverse l Hlen) as Hs.
  assert (wp (algorithm_fn a K _ data key reverse) h
            (fun r h' => r = length h /\ h' = h ++ [l])) as Hwp.
  { destruct a; simpl.
    - eapply bubble_sort_spec; [done|]. by rewrite canonicalSort_sorted_id.
    - eapply selection_sort_spec; [done|]. intros L _ _ HL. by rewrite (HL Hs).
    - eapply insertion_sort_spec; [done|]. by rewrite canonicalSort_sorted_id.
    - unfold merge_sort. apply wp_bind. eapply wp_py_list; [done|].
      apply wp_bind. eapply wp_py_len; [apply lookup_last_object|].
      eapply merge_sort_rec_short; [apply lookup_last_object|done..].
    - unfold quick_sort. apply wp_bind. eapply wp_py_list; [done|].
      apply wp_bind. eapply wp_py_len; [apply lookup_last_object|].
      eapply quick_sort_rec_short; [apply lookup_last_object|done..]. }
  by apply wp_elim in Hwp as (r & h' & -> & -> & ->).
Qed.

(** C9.  Each algorithm is idempotent: sorting the list a call has
    returned, under the same policy, returns an equal list. *)
Theorem sorting_is_idempotent (a : algorithm) key (reverse : bool) h data l :
  h !! data = Some l ->
  exists r h' out,
    algorithm_fn a K _ data key reverse h = Some (r, h') /\
    h' !! r = Some out /\
    result_of (algorithm_fn a K _ r key reverse) h' = Some out.
Proof.
  intros Hd.
  destruct (algorithm_run key reverse a h data l Hd)
    as (r & ext & out & Hrun & _ & Hr & _ & Hsorted & _).
  destruct (algorithm_result key reverse a (h ++ ext) r out Hr)
    as (out' & Hres & _ & _ & Hid & _).
  exists r, (h ++ ext), out. split_and!; [done..|]. by rewrite Hres, (Hid Hsorted).
Qed.

(** C10.  [merge_sort] and [quick_sort] terminate: the recursion of each
    returns whenever its depth may reach the length of the sequence, the
    depth that the functions allow; the halves of a sequence of two or more
    elements are strictly shorter than it; and the partition puts the pivot,
    with every element of its key, in the middle bucket, which leaves the
    left and right buckets strictly shorter than the sequence. *)
Theorem merge_and_quick_sort_terminate key (reverse : bool) h seq l :
  h !! seq = Some l ->
  (forall fuel, length l <= fuel ->
     result_of (merge_sort_rec fuel (_normalize_key key) reverse seq) h
       = Some (canonicalSort key reverse l)) /\
  (forall fuel, length l <= fuel ->
     result_of (quick_sort_rec fuel (_normalize_key key) reverse seq) h
       = Some (canonicalSort key reverse l)) /\
  is_Some (merge_sort seq key reverse h) /\
  is_Some (quick_sort seq key reverse h) /\
  (2 <= length l ->
   exists lo hi h',
     (lo <- slice_to seq (length l / 2) ;;
      hi <- slice_from seq (length l / 2) ;; ret (lo, hi)) h = Some ((lo, hi), h') /\
     exists l_lo l_hi,
       h' !! lo = Some l_lo /\ h' !! hi = Some l_hi /\
       length l_lo < length l /\ length l_hi < length l) /\
  (forall pivot, l !! (length l / 2) = Some pivot ->
   exists left middle right,
     for_in seq (partition_step (_normalize_key key) reverse (_normalize_key key pivot)
                   (length h) (length h + 1) (length h + 2))
       (h ++ [[]; []; []]) = Some (tt, h ++ [left; middle; right]) /\
     Forall (fun x => _normalize_key key x <> _normalize_key key pivot) left /\
     Forall (fun x => _normalize_key key x <> _normalize_key key pivot) right /\
     pivot ∈ middle /\
     length left < length l /\ length right < length l).
Proof.
  intros Hseq. split_and!.
  - intros fuel Hfuel.
    assert (wp (merge_sort_rec fuel (_normalize_key key) reverse seq) h
              (fun r h' => h' !! r = Some (canonicalSort key reverse l))) as Hwp.
    { eapply merge_sort_rec_spec; [done|done|]. by intros r ext Hr _. }
    apply wp_elim in Hwp as (r & h' & Hrun & Hr). unfold result_of. by rewrite Hrun.
  - intros fuel Hfuel.
    assert (wp (quick_sort_rec fuel (_normalize_key key) reverse seq) h
              (fun r h' => h' !! r = Some (canonicalSort key reverse l))) as Hwp.
    { eapply quick_sort_rec_spec; [done|done|]. by intros r ext Hr _. }
    apply wp_elim in Hwp as (r & h' & Hrun & Hr). unfold result_of. by rewrite Hrun.
  - destruct (algorithm_run key reverse Merge h seq l Hseq) as (r & ext & out & Hrun & _).
    simpl in Hrun. by rewrite Hrun.
  - destruct (algorithm_run key reverse Quick h seq l Hseq) as (r & ext & out & Hrun & _).
    simpl in Hrun. by rewrite Hrun.
  - intros Hlen. destruct (halves_shorter (length l) Hlen) as [Hlt Hpos].
    exists (length h), (length h + 1),
      (h ++ [take (length l / 2) l; drop (length l / 2) l]).
    split.
    + assert (wp (lo <- slice_to seq (length l / 2) ;;
                  hi <- slice_from seq (length l / 2) ;; ret (lo, hi)) h
                (fun p h' => p = (length h, length h + 1) /\
                   h' = h ++ [take (length l / 2) l; drop (length l / 2) l]))
        as Hwp.
      { apply wp_bind. eapply wp_slice_to; [done|].
        apply wp_bind. eapply wp_slice_from; [by apply lookup_older_object|].
        apply wp_ret. rewrite length_app. simpl. by rewrite <-app_assoc. }
      by apply wp_elim in Hwp as (p & h' & -> & -> & ->).
    + exists (take (length l / 2) l), (drop (length l / 2) l). split_and!.
      * by rewrite lookup_app_r, Nat.sub_diag by lia.
      * rewrite lookup_app_r by lia.
        by replace (length h + 1 - length h) with 1 by lia.
      * rewrite length_take. lia.
      * rewrite length_drop. lia.
  - intros pivot Hpivot.
    set (k := _normalize_key key).
    destruct (partition_shorter key reverse l _ pivot Hpivot) as [HlenL HlenR].
    exists (List.filter (in_left k reverse (k pivot)) l),
           (List.filter (in_middle k (k pivot)) l),
           (List.filter (in_right k reverse (k pivot)) l).
    split_and!; [| | | |done|done].
    + assert (wp (for_in seq (partition_step k reverse (k pivot)
                      (length h) (length h + 1) (length h + 2)))
                (h ++ [[]; []; []])
                (fun _ h' => h' = h ++ [List.filter (in_left k reverse (k pivot)) l;
                                        List.filter (in_middle k (k pivot)) l;
                                        List.filter (in_right k reverse (k pivot)) l]))
        as Hwp.
      { unfold for_in. apply wp_bind.
        eapply wp_py_len; [by apply lookup_older_object|].
        by apply (partition_loop_spec key reverse h seq (k pivot) l [] [] [] []). }
      by apply wp_elim in Hwp as ([] & h' & -> & ->).
    + apply Forall_forall. intros x Hx.
      apply list_elem_of_In, List.filter_In in Hx as [_ Hx]. unfold in_left in Hx.
      apply andb_true_iff in Hx as [Hx _]. apply negb_true_iff in Hx.
      intros Heq. apply key_eq_spec in Heq. fold k in Heq. congruence.
    + apply Forall_forall. intros x Hx.
      apply list_elem_of_In, List.filter_In in Hx as [_ Hx]. unfold in_right in Hx.
      apply andb_true_iff in Hx as [Hx _]. apply negb_true_iff in Hx.
      intros Heq. apply key_eq_spec in Heq. fold k in Heq. congruence.
    + apply list_elem_of_In, List.filter_In. split.
      * apply list_elem_of_In. by eapply list_elem_of_lookup_2.
      * apply key_eq_refl.
Qed.

End Claims.

(** C8.  The scenario of the words sorted by length: every algorithm
    returns [fig], [pear], [apple], [banana]. *)
Theorem words_sorted_by_length (a : algorithm) (h : store string) (data : loc) :
  h !! data = Some words ->
  result_of (algorithm_fn a nat _ data (KeyFn len) false) h
  = Some ["fig"; "pear"; "apple"; "banana"].
Proof.
  intros Hd.
  destruct (algorithm_result (KeyFn len) false a h data words Hd)
    as (out & -> & Hperm & Hsorted & _).
  f_equal. symmetry.
  change ["fig"; "pear"; "apple"; "banana"]
    with (canonicalSort (KeyFn len) false words).
  apply (key_sorted_perm_nodup (KeyFn len) false).
  - by rewrite Hperm, canonicalSort_perm.
  - by apply (bool_decide_unpack _).
  - apply canonicalSort_sorted.
  - done.
Qed.

(** *** The inputs on which the claims C1, C2 and C3 fail as first stated *)

(** C1 fails for [selection_sort]: the swap that brings the smallest item to
    the front carries the first item of value 2 behind the second. *)
Lemma selection_sort_differs_from_canonicalSort :
  result_of (algorithm_fn Selection Z _ 0 (KeyFn value) false) [tagged_items]
  <> Some (canonicalSort (KeyFn value) false tagged_items).
Proof. vm_compute. discriminate. Qed.

(** C2 fails for [selection_sort] on the same input. *)
Lemma selection_sort_not_stable :
  ~ exists out,
      result_of (algorithm_fn Selection Z _ 0 (KeyFn value) false) [tagged_items]
        = Some out /\
      same_key_order value out tagged_items.
Proof.
  intros (out & Hres & Hsame). vm_compute in Hres. injection Hres as <-.
  specialize (Hsame 2%Z). vm_compute in Hsame. discriminate.
Qed.

(** C3 fails for each of the five algorithms: with [reverse=True] two items
    of equal value come out in their input order, not reversed. *)
Lemma reverse_sort_is_not_reversed_sort :
  Forall (fun a =>
            result_of (algorithm_fn a Z _ 0 (KeyFn value) true) [tied_items]
            <> Some (rev (canonicalSort (KeyFn value) false tied_items)))
         ALGORITHMS.
Proof. repeat constructor; vm_compute; discriminate. Qed.

(** *** The theorems at concrete inputs *)

(** [selection_sort] on the tagged items, by value. *)
Lemma sorts_agree_with_canonicalSort_witness :
  exists out,
    result_of (algorithm_fn Selection Z _ 0 (KeyFn value) false) [tagged_items]
      = Some out /\
    out ≡ₚ tagged_items /\
    key_sorted value false out /\
    value <$> out = value <$> canonicalSort (KeyFn value) false tagged_items /\
    (Selection <> Selection -> out = canonicalSort (KeyFn value) false tagged_items).
Proof.
  apply (sorts_agree_with_canonicalSort Selection (KeyFn value) false
           [tagged_items] 0 tagged_items).
  reflexivity.
Defined.

(** [quick_sort] on the tagged items, by value. *)
Lemma stable_algorithms_keep_input_order_witness :
  exists out,
    result_of (algorithm_fn Quick Z _ 0 (KeyFn value) false) [tagged_items] = Some out /\
    same_key_order value out tagged_items.
Proof.
  apply (stable_algorithms_keep_input_order Quick (KeyFn value) false
           [tagged_items] 0 tagged_items).
  - discriminate.
  - reflexivity.
Defined.

(** [bubble_sort] with [reverse=True] on the two tied items. *)
Lemma reverse_sort_reverses_keys_witness :
  exists out,
    result_of (algorithm_fn Bubble Z _ 0 (KeyFn value) true) [tied_items] = Some out /\
    value <$> out = rev (value <$> canonicalSort (KeyFn value) false tied_items) /\
    (NoDup (value <$> tied_items) -> out = rev (canonicalSort (KeyFn value) false tied_items)) /\
    (Bubble <> Selection -> out = canonicalSort (KeyFn value) true tied_items).
Proof.
  apply (reverse_sort_reverses_keys Bubble (KeyFn value) [tied_items] 0 tied_items).
  reflexivity.
Defined.

(** [insertion_sort] with [reverse=True] on the integers 5, 1, 4. *)
Lemma input_unchanged_result_new_witness :
  exists r h',
    algorithm_fn Insertion Z _ 0 KeyNone true [[5; 1; 4]%Z] = Some (r, h') /\
    h' !! 0 = Some [5; 1; 4]%Z /\
    r <> 0 /\
    [[5; 1; 4]%Z] !! r = None /\
    is_Some (h' !! r) /\
    (forall p o, [[5; 1; 4]%Z] !! p = Some o -> h' !! p = Some o).
Proof.
  apply (input_unchanged_result_new Insertion KeyNone true [[5; 1; 4]%Z] 0 [5; 1; 4]%Z).
  reflexivity.
Defined.

(** [merge_sort] on a single integer. *)
Lemma short_input_returned_as_new_list_witness :
  algorithm_fn Merge Z _ 0 KeyNone false [[7%Z]] = Some (1, [[7%Z]] ++ [[7%Z]]).
Proof.
  apply (short_input_returned_as_new_list Merge KeyNone false [[7%Z]] 0 [7%Z]).
  - reflexivity.
  - simpl. lia.
Defined.

(** [quick_sort] on a store that holds the words alone. *)
Lemma words_sorted_by_length_witness :
  result_of (algorithm_fn Quick nat _ 0 (KeyFn len) false) [words]
  = Some ["fig"; "pear"; "apple"; "banana"].
Proof. apply (words_sorted_by_length Quick [words] 0). reflexivity. Defined.

(** [selection_sort] with [reverse=True] on the tagged items, twice. *)
Lemma sorting_is_idempotent_witness :
  exists r h' out,
    algorithm_fn Selection Z _ 0 (KeyFn value) true [tagged_items] = Some (r, h') /\
    h' !! r = Some out /\
    result_of (algorithm_fn Selection Z _ r (KeyFn value) true) h' = Some out.
Proof.
  apply (sorting_is_idempotent Selection (KeyFn value) true [tagged_items] 0 tagged_items).
  reflexivity.
Defined.

(** The recursions of [merge_sort] and [quick_sort] on the tagged items. *)
Lemma merge_and_quick_sort_terminate_witness :
  (forall fuel, length tagged_items <= fuel ->
     result_of (merge_sort_rec fuel value false 0) [tagged_items]
       = Some (canonicalSort (KeyFn value) false tagged_items)) /\
  (forall fuel, length tagged_items <= fuel ->
     result_of (quick_sort_rec fuel value false 0) [tagged_items]
       = Some (canonicalSort (KeyFn value) false tagged_items)) /\
  is_Some (merge_sort 0 (KeyFn value) false [tagged_items]) /\
  is_Some (quick_sort 0 (KeyFn value) false [tagged_items]) /\
  (2 <= length tagged_items ->
   exists lo hi h',
     (lo <- slice_to 0 (length tagged_items / 2) ;;
      hi <- slice_from 0 (length tagged_items / 2) ;; ret (lo, hi)) [tagged_items]
       = Some ((lo, hi), h') /\
     exists l_lo l_hi,
       h' !! lo = Some l_lo /\ h' !! hi = Some l_hi /\
       length l_lo < length tagged_items /\ length l_hi < length tagged_items) /\
  (forall pivot, tagged_items !! (length tagged_items / 2) = Some pivot ->
   exists left middle right,
     for_in 0 (partition_step value false (value pivot) 1 (1 + 1) (1 + 2))
       ([tagged_items] ++ [[]; []; []])
       = Some (tt, [tagged_items] ++ [left; middle; right]) /\
     Forall (fun x => value x <> value pivot) left /\
     Forall (fun x => value x <> value pivot) right /\
     pivot ∈ middle /\
     length left < length tagged_items /\ length right < length tagged_items).
Proof.
  apply (merge_and_quick_sort_terminate (KeyFn value) false [tagged_items] 0 tagged_items).
  reflexivity.
Defined.

(** * Further properties of the code *)

Section MoreOnAlgorithms.
Context {T K : Type} `{KeyOrder K}.
Implicit Types (h : store T) (l : list T) (key : key_arg T K).

(** X1.  A sequence that is already in the desired order comes back as it
    is, from every algorithm: no algorithm disturbs elements of equal key
    that stand in sorted positions. *)
Theorem sorted_input_returned_unchanged (a : algorithm) key (reverse : bool) h data l :
  h !! data = Some l ->
  key_sorted (_normalize_key key) reverse l ->
  result_of (algorithm_fn a K _ data key reverse) h = Some l.
Proof.
  intros Hd Hs.
  destruct (algorithm_result key reverse a h data l Hd) as (out & -> & _ & _ & Hid & _).
  by rewrite (Hid Hs).
Qed.

(** X2.  When the key function tells all items apart, every algorithm,
    [selection_sort] too, returns the canonical stable sort. *)
Theorem injective_key_gives_canonicalSort (a : algorithm) key (reverse : bool) h data l :
  (forall x y, _normalize_key key x = _normalize_key key y -> x = y) ->
  h !! data = Some l ->
  result_of (algorithm_fn a K _ data key reverse) h
  = Some (canonicalSort key reverse l).
Proof.
  intros Hinj Hd.
  destruct (algorithm_result key reverse a h data l Hd)
    as (out & -> & Hperm & Hsorted & _).
  f_equal. apply (StronglySorted_unique_strong (precedes (_normalize_key key) reverse)).
  - intros x y _ _ Hxy Hyx. apply Hinj. by apply (should_swap_total _ _ reverse).
  - done.
  - apply canonicalSort_sorted.
  - by rewrite Hperm, canonicalSort_perm.
Qed.

(** X3.  The keys of the returned items are the sorted keys of the input
    items: [[key(x) for x in algo(data, key=key)] == sorted(key(x) for x in
    data)], for both directions. *)
Theorem keys_of_result_are_sorted_keys (a : algorithm) key (reverse : bool) h data l :
  h !! data = Some l ->
  exists out,
    result_of (algorithm_fn a K _ data key reverse) h = Some out /\
    _normalize_key key <$> out
    = canonicalSort KeyNone reverse (_normalize_key key <$> l).
Proof.
  intros Hd.
  destruct (algorithm_result key reverse a h data l Hd)
    as (out & Hres & Hperm & Hsorted & _).
  exists out. split; [done|].
  apply (StronglySorted_unique_strong (precedes _identity reverse)).
  - intros x y _ _. apply should_swap_total.
  - by apply (StronglySorted_fmap _ (precedes (_normalize_key key) reverse)).
  - apply (canonicalSort_sorted KeyNone reverse).
  - by rewrite Hperm, canonicalSort_perm.
Qed.

(** X4.  [bubble_sort], [selection_sort] and [insertion_sort] work in place
    on the copy of their argument: the copy is the only object they create,
    and it is the object they return. *)
Theorem in_place_algorithms_create_one_object (a : algorithm) key (reverse : bool)
    h data l :
  a <> Merge -> a <> Quick ->
  h !! data = Some l ->
  exists out,
    algorithm_fn a K _ data key reverse h = Some (length h, h ++ [out]) /\
    out ≡ₚ l.
Proof.
  intros Hm Hq Hd.
  assert (wp (algorithm_fn a K _ data key reverse) h
            (fun r h' => exists out, r = length h /\ h' = h ++ [out] /\ out ≡ₚ l))
    as Hwp.
  { destruct a; simpl; try done.
    - eapply bubble_sort_spec; [done|]. eexists. split_and!; [done..|].
      apply canonicalSort_perm.
    - eapply selection_sort_spec; [done|]. intros L HL _ _. by exists L.
    - eapply insertion_sort_spec; [done|]. eexists. split_and!; [done..|].
      apply canonicalSort_perm. }
  apply wp_elim in Hwp as (r & h' & Hrun & out & -> & -> & Hperm). by exists out.
Qed.

(** X5.  Nothing is cached or shared between calls: two calls on the same
    sequence return two different new lists, the second call leaves the list
    that the first returned as it was, and the two lists show the same
    keys (and are equal, for the four stable algorithms). *)
Theorem two_calls_return_separate_lists (a : algorithm) key (reverse : bool) h data l :
  h !! data = Some l ->
  exists r1 h1 r2 h2 out1 out2,
    algorithm_fn a K _ data key reverse h = Some (r1, h1) /\
    algorithm_fn a K _ data key reverse h1 = Some (r2, h2) /\
    r1 <> r2 /\
    h1 !! r1 = Some out1 /\ h2 !! r1 = Some out1 /\ h2 !! r2 = Some out2 /\
    h2 !! data = Some l /\
    _normalize_key key <$> out1 = _normalize_key key <$> out2 /\
    (a <> Selection -> out1 = out2).
Proof.
  intros Hd.
  destruct (algorithm_run key reverse a h data l Hd)
    as (r1 & ext1 & out1 & Hrun1 & Hfresh1 & Hr1 & Hperm1 & Hs1 & _ & Hc1).
  pose proof (lookup_older_object h ext1 data l Hd) as Hd1.
  destruct (algorithm_run key reverse a (h ++ ext1) data l Hd1)
    as (r2 & ext2 & out2 & Hrun2 & Hfresh2 & Hr2 & Hperm2 & Hs2 & _ & Hc2).
  exists r1, (h ++ ext1), r2, ((h ++ ext1) ++ ext2), out1, out2.
  split_and!; [done|done| |done| |done| | |].
  - apply lookup_lt_Some in Hr1. lia.
  - by apply lookup_older_object.
  - by apply lookup_older_object.
  - apply (key_sorted_perm_keys key reverse); [|done..]. by rewrite Hperm1, Hperm2.
  - intros Ha. by rewrite (Hc1 Ha), (Hc2 Ha).
Qed.

End MoreOnAlgorithms.

Section MoreOnLoops.
Context {T K : Type} `{KeyOrder K}.
Variable k : T -> K.
Variable reverse : bool.
Implicit Types (h : store T) (l : list T).


(** X7.  [merge] of two sorted lists returns, as a new list, the canonical
    stable sort of the left list followed by the right one: on a tie the
    element of the left list comes first.  It changes no list that existed
    before the call. *)
Theorem merge_of_sorted_lists h left right L R :
  h !! left = Some L -> h !! right = Some R ->
  key_sorted k reverse L -> key_sorted k reverse R ->
  exists r h',
    merge k reverse left right h = Some (r, h') /\
    h' !! r = Some (canonicalSort (KeyFn k) reverse (L ++ R)) /\
    h !! r = None /\
    (forall p o, h !! p = Some o -> h' !! p = Some o).
Proof.
  intros HL HR HsL HsR.
  assert (wp (merge k reverse left right) h
            (fun r h' => exists g, r = length h /\
               h' = h ++ canonicalSort (KeyFn k) reverse (L ++ R) :: g)) as Hwp.
  { apply (merge_spec (KeyFn k) reverse h left right L R); [done..|].
    intros M g1 g2 HsM Hsame. exists [g1; g2]. split; [done|].
    by rewrite (canonicalSort_unique (KeyFn k) reverse (L ++ R) M). }
  apply wp_elim in Hwp as (r & h' & Hrun & g & -> & ->).
  exists (length h), (h ++ canonicalSort (KeyFn k) reverse (L ++ R) :: g).
  split_and!; [done| | |].
  - by apply list_lookup_middle.
  - by apply lookup_ge_None.
  - intros p o. apply lookup_older_object.
Qed.

Lemma filter_sublist (P : T -> bool) l : List.filter P l `sublist_of` l.
Proof.
  induction l as [|x l IH]; simpl; [done|].
  destruct (P x); by constructor.
Qed.

(** X8.  The partition loop of [quick_sort], for any pivot key: it fills the
    three new lists with all the items of the sequence, each list in the
    order of the sequence; the middle list has the items of the pivot key,
    the right list the items that must follow that key and the left list
    the items that may stand before it. *)
Theorem partition_loop_buckets h seq l (pivot_key : K) :
  h !! seq = Some l ->
  exists left middle right,
    for_in seq (partition_step k reverse pivot_key (length h) (length h + 1) (length h + 2))
      (h ++ [[]; []; []]) = Some (tt, h ++ [left; middle; right]) /\
    left `sublist_of` l /\ middle `sublist_of` l /\ right `sublist_of` l /\
    same_key_order k (left ++ middle ++ right) l /\
    length left + length middle + length right = length l /\
    Forall (fun x => k x = pivot_key) middle /\
    Forall (fun x => _should_swap (k x) pivot_key reverse = true) right /\
    Forall (fun x => _should_swap (k x) pivot_key reverse = false /\ k x <> pivot_key)
      left.
Proof.
  intros Hseq.
  exists (List.filter (in_left k reverse pivot_key) l),
         (List.filter (in_middle k pivot_key) l),
         (List.filter (in_right k reverse pivot_key) l).
  split_and!; try apply filter_sublist.
  - assert (wp (for_in seq (partition_step k reverse pivot_key
                    (length h) (length h + 1) (length h + 2)))
              (h ++ [[]; []; []])
              (fun _ h' => h' = h ++ [List.filter (in_left k reverse pivot_key) l;
                                      List.filter (in_middle k pivot_key) l;
                                      List.filter (in_right k reverse pivot_key) l]))
      as Hwp.
    { unfold for_in. apply wp_bind.
      eapply wp_py_len; [by apply lookup_older_object|].
      by apply (partition_loop_spec (KeyFn k) reverse h seq pivot_key l [] [] [] []). }
    by apply wp_elim in Hwp as ([] & h' & -> & ->).
  - apply (partition_same_key_order (KeyFn k) reverse).
  - apply (partition_length (KeyFn k) reverse).
  - eapply Forall_impl; [apply filter_Forall|]. intros x Hx. by apply key_eq_spec.
  - eapply Forall_impl; [apply filter_Forall|]. intros x Hx.
    by apply andb_true_iff in Hx as [_ Hx].
  - eapply Forall_impl; [apply filter_Forall|]. intros x Hx.
    apply andb_true_iff in Hx as [Hne Hx]. apply negb_true_iff in Hne, Hx.
    split; [done|]. intros Heq. apply key_eq_spec in Heq. congruence.
Qed.

(** X9.  One pass of the inner loop of [bubble_sort] over the indices below
    [end_]: the items behind index [end_] stay, the items up to it are
    rearranged without a change in the order of items of equal key, the item
    left at index [end_] may stand behind all items before it, and the pass
    reports no swap only if it changed nothing and the items up to index
    [end_] were in order. *)
Theorem bubble_pass_settles_last h l (end_ : nat) :
  end_ < length l ->
  exists l' swapped m,
    for_range 0 end_ (bubble_step (length h) k reverse) false (h ++ [l])
      = Some (swapped, h ++ [l']) /\
    same_key_order k (take (S end_) l') (take (S end_) l) /\
    drop (S end_) l' = drop (S end_) l /\
    l' !! end_ = Some m /\
    Forall (fun x => precedes k reverse x m) (take (S end_) l') /\
    (swapped = false -> l' = l /\ key_sorted k reverse (take (S end_) l)).
Proof.
  intros Hend.
  assert (exists a mid suf, l = (a :: mid) ++ suf /\ length mid = end_)
    as (a & mid & suf & -> & <-).
  { destruct (take (S end_) l) as [|a mid] eqn:Etake.
    - apply (f_equal length) in Etake. rewrite length_take_le in Etake by lia.
      discriminate.
    - exists a, mid, (drop (S end_) l). split; [by rewrite <-Etake, take_drop|].
      apply (f_equal length) in Etake. rewrite length_take_le in Etake by lia.
      simpl in Etake. lia. }
  clear Hend.
  assert (forall w : list T, length w = S (length mid) ->
            take (S (length mid)) (w ++ suf) = w /\
            drop (S (length mid)) (w ++ suf) = suf) as Hcut.
  { intros w Hw. rewrite <-Hw. split; [apply take_app_length|apply drop_app_length]. }
  pose proof (bubble_up_length (KeyFn k) reverse a mid) as Hlen.
  destruct (bubble_up_last (KeyFn k) reverse a mid) as (u & m & Hup & Hu & Ham).
  simpl in Hlen, Hup, Hu, Ham.
  destruct (Hcut _ Hlen) as [Htake' Hdrop'].
  destruct (Hcut (a :: mid) eq_refl) as [Htake Hdrop].
  exists ((bubble_up k reverse a mid).1 ++ suf), (bubble_up k reverse a mid).2, m.
  rewrite Htake', Hdrop', Htake, Hdrop.
  split_and!.
  - assert (wp (for_range 0 (length mid) (bubble_step (length h) k reverse) false)
              (h ++ [(a :: mid) ++ suf])
              (fun sw h' => sw = (bubble_up k reverse a mid).2 /\
                 h' = h ++ [(bubble_up k reverse a mid).1 ++ suf])) as Hwp.
    { by apply (bubble_pass_spec k reverse h mid [] a suf false). }
    by apply wp_elim in Hwp as (sw & h' & -> & -> & ->).
  - apply (bubble_up_same_key_order (KeyFn k) reverse).
  - done.
  - rewrite lookup_app_l by lia. rewrite Hup.
    rewrite Hup, length_app in Hlen. simpl in Hlen.
    replace (length mid) with (length u) by lia. by apply list_lookup_middle.
  - rewrite Hup. apply Forall_app. split; [done|].
    constructor; [apply precedes_refl|constructor].
  - intros Hno.
    destruct (bubble_up_no_swap (KeyFn k) reverse a mid Hno) as [Heq Hs].
    simpl in Heq, Hs. split; [|done]. by rewrite Heq.
Qed.

End MoreOnLoops.

Section MoreOnSelectionAndInsertion.
Context {T K : Type} `{KeyOrder K}.
Variable k : T -> K.
Variable reverse : bool.
Implicit Types (h : store T) (l : list T).

(** Every element that the scan passes before it reaches the best one must
    follow the best one. *)
Lemma select_best_first (todo : list T) : forall b vb j,
  b < j ->
  let r := select_best k reverse b vb j todo in
  (r.1 <> b -> _should_swap (k vb) (k r.2) reverse = true) /\
  (forall o y, todo !! o = Some y -> j + o < r.1 ->
     _should_swap (k y) (k r.2) reverse = true).
Proof.
  induction todo as [|y todo IH]; intros b vb j Hbj; simpl.
  - split; [done|]. by intros o y'.
  - destruct (_should_swap (k vb) (k y) reverse) eqn:E.
    + destruct (IH j y (S j)) as [Hy Hrest]; [lia|].
      destruct (select_best_spec (KeyFn k) reverse todo j y (S j)) as (_ & Hry & _); [lia|].
      simpl in Hry. set (r := select_best k reverse j y (S j) todo) in *.
      split.
      * intros _. by apply (should_swap_lt_le_trans _ (k y)).
      * intros [|o] y' Hy' Ho; simpl in Hy'.
        -- injection Hy' as <-. apply Hy. lia.
        -- apply (Hrest o); [done|lia].
    + destruct (IH b vb (S j)) as [Hvb Hrest]; [lia|].
      destruct (select_best_spec (KeyFn k) reverse todo b vb (S j)) as (Hr & _); [lia|].
      simpl in Hr. set (r := select_best k reverse b vb (S j) todo) in *.
      split; [done|].
      intros [|o] y' Hy' Ho; simpl in Hy'.
      * injection Hy' as <-.
        assert (r.1 <> b) as Hne by lia. specialize (Hvb Hne).
        destruct (_should_swap (k y) (k r.2) reverse) eqn:Ey; [done|].
        by rewrite (should_swap_le_trans _ _ _ _ E Ey) in Hvb.
      * apply (Hrest o); [done|lia].
Qed.

(** X10.  The inner loop of [selection_sort], started at index [i]: it
    changes nothing and returns the index of the first of the items from
    index [i] on that may stand before all of them; every item that it passed
    before must follow the item it chose. *)
Theorem selection_scan_finds_first_best h l (i : nat) x :
  l !! i = Some x ->
  exists best_idx v,
    for_range (i + 1) (length l - (i + 1)) (selection_step (length h) k reverse) i
      (h ++ [l]) = Some (best_idx, h ++ [l]) /\
    i <= best_idx /\
    l !! best_idx = Some v /\
    (forall j y, i <= j -> l !! j = Some y -> precedes k reverse v y) /\
    (forall j y, i <= j < best_idx -> l !! j = Some y ->
       _should_swap (k y) (k v) reverse = true).
Proof.
  intros Hi. pose proof (lookup_lt_Some _ _ _ Hi) as Hlt.
  set (pre := take (i + 1) l). set (todo := drop (i + 1) l).
  assert (l = pre ++ todo) as Hl by (symmetry; apply take_drop).
  assert (length pre = i + 1) as Hpre by (apply length_take_le; lia).
  assert (length todo = length l - (i + 1)) as Htodo by apply length_drop.
  assert (forall j y, i < j -> l !! j = Some y -> todo !! (j - (i + 1)) = Some y)
    as Hlater.
  { intros j y Hj Hy. unfold todo. rewrite lookup_drop.
    by replace (i + 1 + (j - (i + 1))) with j by lia. }
  clearbody pre todo. subst l.
  destruct (select_best_spec (KeyFn k) reverse todo i x (i + 1))
    as (Hr & Hrx & Hall & _); [lia|].
  destruct (select_best_first todo i x (i + 1)) as (Hx & Hfirst); [lia|].
  simpl in Hr, Hrx, Hall, Hx, Hfirst.
  set (r := select_best k reverse i x (i + 1) todo) in *.
  exists r.1, r.2. split_and!.
  - assert (wp (for_range (i + 1) (length (pre ++ todo) - (i + 1))
                  (selection_step (length h) k reverse) i) (h ++ [pre ++ todo])
              (fun b h' => b = r.1 /\ h' = h ++ [pre ++ todo])) as Hwp.
    { rewrite <-Htodo, <-Hpre.
      apply (selection_scan_spec (KeyFn k) reverse h todo pre i x); [done|].
      by rewrite Hpre. }
    by apply wp_elim in Hwp as (b & h' & -> & -> & ->).
  - destruct Hr as [->|(o & -> & _)]; simpl; lia.
  - destruct Hr as [->|(o & Ho & Hv)]; [done|].
    rewrite Ho, lookup_app_r by lia.
    by replace (i + 1 + o - length pre) with o by lia.
  - intros j y Hj Hy. destruct (decide (j = i)) as [->|Hne].
    + by replace y with x by congruence.
    + rewrite Forall_forall in Hall. apply Hall.
      apply list_elem_of_lookup. exists (j - (i + 1)). apply Hlater; [lia|done].
  - intros j y Hj Hy. destruct (decide (j = i)) as [->|Hne].
    + replace y with x by congruence. apply Hx. lia.
    + apply (Hfirst (j - (i + 1))); [apply Hlater; [lia|done]|lia].
Qed.

(** The outer loop of insertion sort over the items [u1], in front of items
    [u2] that it does not reach. *)
Lemma insertion_rounds_spec h (u1 : list T) :
  forall s u2 (Q : unit -> store T -> Prop),
  key_sorted k reverse s ->
  Q tt (h ++ [canonicalSort (KeyFn k) reverse (s ++ u1) ++ u2]) ->
  wp (for_range (length s) (length u1) (insertion_round (length h) k reverse) tt)
     (h ++ [s ++ u1 ++ u2]) Q.
Proof.
  induction u1 as [|x u1 IH]; intros s u2 Q Hs HQ.
  - simpl. apply wp_ret. rewrite app_nil_r in HQ.
    by rewrite (canonicalSort_sorted_id (KeyFn k)) in HQ.
  - simpl. apply wp_bind. unfold insertion_round at 1.
    apply wp_bind. eapply wp_getitem; [apply lookup_last_object|by apply list_lookup_middle|].
    apply wp_bind. apply (insertion_shift_spec (KeyFn k) reverse h x s x (u1 ++ u2)).
    intros A B c' -> HB HA.
    eapply wp_setitem; [apply lookup_last_object| |].
    { rewrite length_app. simpl. lia. }
    rewrite insert_last_object.
    replace (<[length A := x]> (A ++ c' :: B ++ u1 ++ u2))
      with ((A ++ x :: B) ++ u1 ++ u2).
    2:{ rewrite insert_app_r_alt, Nat.sub_diag by lia. simpl.
        by rewrite <-app_assoc. }
    replace (S (length (A ++ B))) with (length (A ++ x :: B)).
    2:{ rewrite !length_app. simpl. lia. }
    apply IH.
    + apply StronglySorted_app in Hs as (HAB & HsA & HsB).
      pose proof (sorted_all_precede (KeyFn k) reverse A x HsA HA) as HAx.
      apply StronglySorted_app_2; [|done|].
      * intros a b Ha Hb. inv Hb; [|by apply HAB].
        rewrite Forall_forall in HAx. by apply HAx.
      * constructor; [done|]. eapply Forall_impl; [exact HB|].
        intros b Hb. by apply should_swap_asym.
    + erewrite (canonicalSort_same_key_order (KeyFn k)); [exact HQ|].
      rewrite <-!app_assoc. apply same_key_order_app; [apply same_key_order_refl|].
      change (x :: B ++ u1) with ((x :: B) ++ u1).
      replace (B ++ x :: u1) with ((B ++ [x]) ++ u1) by (by rewrite <-app_assoc).
      apply same_key_order_app; [|apply same_key_order_refl].
      by apply (shifted_same_key_order (KeyFn k) reverse).
Qed.

(** X11.  The invariant of [insertion_sort]: after the rounds for the indices
    1 to [m] the first [m + 1] items are the canonical stable sort of the
    first [m + 1] items of the input, and the items behind them are as in the
    input. *)
Theorem insertion_rounds_sort_prefix h l (m : nat) :
  m < length l ->
  for_range 1 m (insertion_round (length h) k reverse) tt (h ++ [l])
  = Some (tt, h ++ [canonicalSort (KeyFn k) reverse (take (S m) l) ++ drop (S m) l]).
Proof.
  intros Hm. destruct l as [|a l]; [simpl in Hm; lia|]. simpl in Hm.
  assert (wp (for_range 1 m (insertion_round (length h) k reverse) tt)
            (h ++ [a :: l])
            (fun _ h' => h' = h ++ [canonicalSort (KeyFn k) reverse
                                      (take (S m) (a :: l)) ++ drop (S m) (a :: l)]))
    as Hwp.
  { pose proof (insertion_rounds_spec h (take m l) [a] (drop m l)) as Hspec.
    simpl in Hspec. rewrite take_drop, length_take_le in Hspec by lia.
    apply Hspec; [repeat constructor|done]. }
  by apply wp_elim in Hwp as ([] & h' & -> & ->).
Qed.

End MoreOnSelectionAndInsertion.

Section MoreOnSelectors.
Context {T K : Type} `{KeyOrder K}.
Implicit Types (h : store T) (l : list T) (key : key_arg T K).

(** X12.  The three styles of selector are interchangeable: holding the same
    algorithm, as a strategy object, as a wrapped function or as the
    function itself, they run the same call, which returns a sorted
    permutation of the input. *)
Theorem selectors_of_all_styles_agree (a : algorithm) key (reverse : bool) h data l :
  h !! data = Some l ->
  exists r h' out,
    SorterABC_sort {| abc_strategy := strategy_object a |} data key reverse h
      = Some (r, h') /\
    SorterProto_sort {| proto_strategy := FunctionSortStrategy (algorithm_fn a) |}
      data key reverse h = Some (r, h') /\
    SorterCallable_sort {| callable_strategy := algorithm_fn a |} data key reverse h
      = Some (r, h') /\
    h' !! r = Some out /\
    out ≡ₚ l /\
    key_sorted (_normalize_key key) reverse out.
Proof.
  intros Hd.
  destruct (algorithm_run key reverse a h data l Hd)
    as (r & ext & out & Hrun & _ & Hr & Hperm & Hs & _).
  exists r, (h ++ ext), out. split_and!; [|done..].
  by destruct a.
Qed.

End MoreOnSelectors.

(** *** The further properties at concrete inputs *)

(** [selection_sort] on three integers in order. *)
Lemma sorted_input_returned_unchanged_witness :
  result_of (algorithm_fn Selection Z _ 0 KeyNone false) [[1; 2; 2]%Z]
  = Some [1; 2; 2]%Z.
Proof.
  apply (sorted_input_returned_unchanged Selection KeyNone false [[1; 2; 2]%Z] 0).
  - reflexivity.
  - repeat constructor.
Defined.

(** [selection_sort] on the integers of the demo, without a key function. *)
Lemma injective_key_gives_canonicalSort_witness :
  result_of (algorithm_fn Selection Z _ 0 KeyNone false) [demo_data]
  = Some (canonicalSort KeyNone false demo_data).
Proof.
  apply (injective_key_gives_canonicalSort Selection KeyNone false [demo_data] 0).
  - intros x y Hxy. exact Hxy.
  - reflexivity.
Defined.

(** [selection_sort] with [reverse=True] on the tagged items, by value. *)
Lemma keys_of_result_are_sorted_keys_witness :
  exists out,
    result_of (algorithm_fn Selection Z _ 0 (KeyFn value) true) [tagged_items]
      = Some out /\
    value <$> out = canonicalSort KeyNone true (value <$> tagged_items).
Proof.
  apply (keys_of_result_are_sorted_keys Selection (KeyFn value) true
           [tagged_items] 0 tagged_items).
  reflexivity.
Defined.

(** [bubble_sort] on the integers of the demo. *)
Lemma in_place_algorithms_create_one_object_witness :
  exists out,
    algorithm_fn Bubble Z _ 0 KeyNone false [demo_data]
      = Some (1, [demo_data] ++ [out]) /\
    out ≡ₚ demo_data.
Proof.
  apply (in_place_algorithms_create_one_object Bubble KeyNone false [demo_data] 0).
  - discriminate.
  - discriminate.
  - reflexivity.
Defined.

(** [merge_sort] twice on the tagged items, by value. *)
Lemma two_calls_return_separate_lists_witness :
  exists r1 h1 r2 h2 out1 out2,
    algorithm_fn Merge Z _ 0 (KeyFn value) false [tagged_items] = Some (r1, h1) /\
    algorithm_fn Merge Z _ 0 (KeyFn value) false h1 = Some (r2, h2) /\
    r1 <> r2 /\
    h1 !! r1 = Some out1 /\ h2 !! r1 = Some out1 /\ h2 !! r2 = Some out2 /\
    h2 !! 0 = Some tagged_items /\
    value <$> out1 = value <$> out2 /\
    (Merge <> Selection -> out1 = out2).
Proof.
  apply (two_calls_return_separate_lists Merge (KeyFn value) false
           [tagged_items] 0 tagged_items).
  reflexivity.
Defined.

(** [merge] of two sorted lists of integers with a tie. *)
Lemma merge_of_sorted_lists_witness :
  exists r h',
    merge _identity false 0 1 [[1; 4]%Z; [1; 2]%Z] = Some (r, h') /\
    h' !! r = Some (canonicalSort (KeyFn _identity) false ([1; 4]%Z ++ [1; 2]%Z)) /\
    [[1; 4]%Z; [1; 2]%Z] !! r = None /\
    (forall p o, [[1; 4]%Z; [1; 2]%Z] !! p = Some o -> h' !! p = Some o).
Proof.
  apply (merge_of_sorted_lists _identity false [[1; 4]%Z; [1; 2]%Z] 0 1).
  - reflexivity.
  - reflexivity.
  - repeat constructor.
  - repeat constructor.
Defined.

(** The partition of the tagged items around the value 2. *)
Lemma partition_loop_buckets_witness :
  exists left middle right,
    for_in 0 (partition_step value false 2%Z 1 (1 + 1) (1 + 2))
      ([tagged_items] ++ [[]; []; []])
      = Some (tt, [tagged_items] ++ [left; middle; right]) /\
    left `sublist_of` tagged_items /\ middle `sublist_of` tagged_items /\
    right `sublist_of` tagged_items /\
    same_key_order value (left ++ middle ++ right) tagged_items /\
    length left + length middle + length right = length tagged_items /\
    Forall (fun x => value x = 2%Z) middle /\
    Forall (fun x => _should_swap (value x) 2%Z false = true) right /\
    Forall (fun x => _should_swap (value x) 2%Z false = false /\ value x <> 2%Z) left.
Proof.
  apply (partition_loop_buckets value false [tagged_items] 0 tagged_items 2%Z).
  reflexivity.
Defined.

(** The first pass of [bubble_sort] over the integers of the demo. *)
Lemma bubble_pass_settles_last_witness :
  exists l' swapped m,
    for_range 0 6 (bubble_step 0 _identity false) false ([] ++ [demo_data])
      = Some (swapped, [] ++ [l']) /\
    same_key_order _identity (take 7 l') (take 7 demo_data) /\
    drop 7 l' = drop 7 demo_data /\
    l' !! 6 = Some m /\
    Forall (fun x => precedes _identity false x m) (take 7 l') /\
    (swapped = false -> l' = demo_data /\ key_sorted _identity false (take 7 demo_data)).
Proof.
  apply (bubble_pass_settles_last _identity false [] demo_data 6).
  simpl. lia.
Defined.

(** The scan of [selection_sort] over the tagged items from index 0. *)
Lemma selection_scan_finds_first_best_witness :
  exists best_idx v,
    for_range (0 + 1) (length tagged_items - (0 + 1)) (selection_step 0 value false) 0
      ([] ++ [tagged_items]) = Some (best_idx, [] ++ [tagged_items]) /\
    0 <= best_idx /\
    tagged_items !! best_idx = Some v /\
    (forall j y, 0 <= j -> tagged_items !! j = Some y -> precedes value false v y) /\
    (forall j y, 0 <= j < best_idx -> tagged_items !! j = Some y ->
       _should_swap (value y) (value v) false = true).
Proof.
  apply (selection_scan_finds_first_best value false [] tagged_items 0
           {| value := 2; tag := "a" |}).
  reflexivity.
Defined.

(** Three rounds of [insertion_sort] over the integers of the demo. *)
Lemma insertion_rounds_sort_prefix_witness :
  for_range 1 3 (insertion_round 0 _identity false) tt ([] ++ [demo_data])
  = Some (tt, [] ++ [canonicalSort (KeyFn _identity) false (take 4 demo_data)
                     ++ drop 4 demo_data]).
Proof.
  apply (insertion_rounds_sort_prefix _identity false [] demo_data 3).
  simpl. lia.
Defined.

(** The three selectors with [quick_sort] on the tagged items, by value. *)
Lemma selectors_of_all_styles_agree_witness :
  exists r h' out,
    SorterABC_sort {| abc_strategy := strategy_object Quick |} 0 (KeyFn value) false
      [tagged_items] = Some (r, h') /\
    SorterProto_sort {| proto_strategy := FunctionSortStrategy (algorithm_fn Quick) |}
      0 (KeyFn value) false [tagged_items] = Some (r, h') /\
    SorterCallable_sort {| callable_strategy := algorithm_fn Quick |} 0 (KeyFn value) false
      [tagged_items] = Some (r, h') /\
    h' !! r = Some out /\
    out ≡ₚ tagged_items /\
    key_sorted value false out.
Proof.
  apply (selectors_of_all_styles_agree Quick (KeyFn value) false
           [tagged_items] 0 tagged_items).
  reflexivity.
Defined.
